(** * A shallow embedding of the Raft node of [raft/raft.go]

    The handlers of [raft.go] ([applyCommand], [appendEntries],
    [requestVote], [handleVoteResult], [handleAppendEntriesResult]) are
    translated statement by statement into functions over an explicit
    node record.  Go's [uint64] and [uint32] are integers of [Z] with the
    wrap-around written out, maps are [gmap]s read with Go's zero-value
    default, and the clock and the apply channel are threaded through the
    state. *)

From Stdlib Require Import ZArith Lia.
From stdpp Require Import gmap strings list sorting.

Open Scope Z_scope.

(** ** Machine integers *)

Definition u64_modulus : Z := 2 ^ 64.

(** Reduction of an integer into the range of [uint64]. *)
Definition u64 (x : Z) : Z := x mod u64_modulus.

Definition u64_add (a b : Z) : Z := u64 (a + b).
Definition u64_sub (a b : Z) : Z := u64 (a - b).

Definition is_u64 (x : Z) : Prop := 0 ≤ x < u64_modulus.

(** Go's [int] on a 64-bit platform: two's complement wrap-around. *)
Definition int_min : Z := - 2 ^ 63.
Definition int_max : Z := 2 ^ 63 - 1.
Definition int_wrap (x : Z) : Z := (x + 2 ^ 63) mod 2 ^ 64 - 2 ^ 63.
Definition int_add (a b : Z) : Z := int_wrap (a + b).

(** [len] of a slice or of a map: the number of elements, an [int].  The
    elements are held in memory, so the count stays far below [int_max]. *)
Definition len {A} (l : list A) : Z := Z.of_nat (length l).

(** Reading a Go map at a key yields the zero value when the key is absent. *)
Definition mapGet (m : gmap Z Z) (k : Z) : Z := default 0 (m !! k).

(** ** Messages of package [pb] *)

Module Entry.
Record t := mk { Id : Z; Term : Z; Data : string }.
End Entry.

Module ApplyCommandRequest.
Record t := mk { Data : string }.
End ApplyCommandRequest.

Module ApplyCommandResponse.
Record t := mk { Entry : Entry.t }.
End ApplyCommandResponse.

Module AppendEntriesRequest.
Record t := mk {
    Term : Z;
    LeaderId : Z;
    PrevLogId : Z;
    PrevLogTerm : Z;
    Entries : list Entry.t;
    LeaderCommitId : Z
  }.
End AppendEntriesRequest.

Module AppendEntriesResponse.
Record t := mk { Term : Z; Success : bool }.
End AppendEntriesResponse.

Module RequestVoteRequest.
Record t := mk {
    Term : Z;
    CandidateId : Z;
    LastLogId : Z;
    LastLogTerm : Z
  }.
End RequestVoteRequest.

Module RequestVoteResponse.
Record t := mk { Term : Z; VoteGranted : bool }.
End RequestVoteResponse.

(** ** Node state *)

Inductive RaftState := Follower | Candidate | Leader.

Inductive error := errNotLeader.

(** A peer is the client of the transport towards another node; the
    handlers only count and enumerate the peers. *)
Inductive Peer := PeerClient.

(** The struct [Raft] with the fields of the embedded [*raftState]
    promoted, as Go's selectors read them.  [lastHeartbeat] is a reading
    of the clock; [applyCh] lists the entries sent on the apply channel,
    oldest first.  The logger, the persister and the RPC intake channel
    take no part in what the handlers compute. *)
Record Raft := mkRaft {
  state : RaftState;
  currentTerm : Z;
  votedFor : Z;
  logs : list Entry.t;
  commitIndex : Z;
  lastApplied : Z;
  nextIndex : gmap Z Z;
  matchIndex : gmap Z Z;
  id : Z;
  peers : gmap Z Peer;
  lastHeartbeat : Z;
  applyCh : list Entry.t
}.

Definition set_state (r : Raft) (v : RaftState) : Raft :=
  mkRaft v (currentTerm r) (votedFor r) (logs r) (commitIndex r)
    (lastApplied r) (nextIndex r) (matchIndex r) (id r) (peers r)
    (lastHeartbeat r) (applyCh r).

Definition set_currentTerm (r : Raft) (v : Z) : Raft :=
  mkRaft (state r) v (votedFor r) (logs r) (commitIndex r)
    (lastApplied r) (nextIndex r) (matchIndex r) (id r) (peers r)
    (lastHeartbeat r) (applyCh r).

Definition set_votedFor (r : Raft) (v : Z) : Raft :=
  mkRaft (state r) (currentTerm r) v (logs r) (commitIndex r)
    (lastApplied r) (nextIndex r) (matchIndex r) (id r) (peers r)
    (lastHeartbeat r) (applyCh r).

Definition set_logs (r : Raft) (v : list Entry.t) : Raft :=
  mkRaft (state r) (currentTerm r) (votedFor r) v (commitIndex r)
    (lastApplied r) (nextIndex r) (matchIndex r) (id r) (peers r)
    (lastHeartbeat r) (applyCh r).

Definition set_commitIndex (r : Raft) (v : Z) : Raft :=
  mkRaft (state r) (currentTerm r) (votedFor r) (logs r) v
    (lastApplied r) (nextIndex r) (matchIndex r) (id r) (peers r)
    (lastHeartbeat r) (applyCh r).

Definition set_lastApplied (r : Raft) (v : Z) : Raft :=
  mkRaft (state r) (currentTerm r) (votedFor r) (logs r) (commitIndex r)
    v (nextIndex r) (matchIndex r) (id r) (peers r)
    (lastHeartbeat r) (applyCh r).

Definition set_nextIndex (r : Raft) (v : gmap Z Z) : Raft :=
  mkRaft (state r) (currentTerm r) (votedFor r) (logs r) (commitIndex r)
    (lastApplied r) v (matchIndex r) (id r) (peers r)
    (lastHeartbeat r) (applyCh r).

Definition set_matchIndex (r : Raft) (v : gmap Z Z) : Raft :=
  mkRaft (state r) (currentTerm r) (votedFor r) (logs r) (commitIndex r)
    (lastApplied r) (nextIndex r) v (id r) (peers r)
    (lastHeartbeat r) (applyCh r).

Definition set_lastHeartbeat (r : Raft) (v : Z) : Raft :=
  mkRaft (state r) (currentTerm r) (votedFor r) (logs r) (commitIndex r)
    (lastApplied r) (nextIndex r) (matchIndex r) (id r) (peers r)
    v (applyCh r).

Definition set_applyCh (r : Raft) (v : list Entry.t) : Raft :=
  mkRaft (state r) (currentTerm r) (votedFor r) (logs r) (commitIndex r)
    (lastApplied r) (nextIndex r) (matchIndex r) (id r) (peers r)
    (lastHeartbeat r) v.

(** [NewRaft]: a follower at term 0 with an empty log; [now] is the
    reading of the clock at creation. *)
Definition NewRaft (id0 : Z) (peers0 : gmap Z Peer) (now : Z) : Raft :=
  mkRaft Follower 0 0 [] 0 0 ∅ ∅ id0 peers0 now [].

(** ** Operations of [raftState]

    The file that defines the methods of [raftState] is not part of the
    sources at hand; each is written here after the description the
    specification gives of it (section 4.2). *)

(** Modelled from the spec: [toFollower(term)], absent from the sources,
    "sets role, currentTerm=term, votedFor=0". *)
Definition toFollower (r : Raft) (term : Z) : Raft :=
  set_votedFor (set_currentTerm (set_state r Follower) term) 0.

(** Modelled from the spec: [toCandidate()], absent from the sources,
    the transition to the Candidate role. *)
Definition toCandidate (r : Raft) : Raft := set_state r Candidate.

(** Modelled from the spec: [toLeader()], absent from the sources, the
    transition to the Leader role. *)
Definition toLeader (r : Raft) : Raft := set_state r Leader.

(** Modelled from the spec: [voteFor(peerId, incrementTerm)], absent from
    the sources, "when incrementTerm, bumps term by 1 first". *)
Definition voteFor (r : Raft) (peerId : Z) (incrementTerm : bool) : Raft :=
  let r := if incrementTerm
           then set_currentTerm r (u64_add (currentTerm r) 1) else r in
  set_votedFor r peerId.

(** Modelled from the spec: [getLastLog() → (id, term)], absent from the
    sources, "returns (0,0) on empty log". *)
Definition getLastLog (r : Raft) : Z * Z :=
  match last (logs r) with
  | Some e => (Entry.Id e, Entry.Term e)
  | None => (0, 0)
  end.

(** Modelled from the spec: [getLog(id) → Entry?], absent from the
    sources: the entry of the log whose id is [id], if there is one. *)
Definition getLog (r : Raft) (i : Z) : option Entry.t :=
  snd <$> list_find (λ e, Entry.Id e = i) (logs r).

(** The part of a log that starts at the first entry whose id is at least
    [fromId]. *)
Fixpoint suffixFrom (fromId : Z) (l : list Entry.t) : list Entry.t :=
  match l with
  | [] => []
  | e :: l' => if Entry.Id e <? fromId then suffixFrom fromId l' else l
  end.

(** Modelled from the spec: [getLogs(fromId) → suffix], absent from the
    sources: the suffix of the log from the entry with id [fromId] on. *)
Definition getLogs (r : Raft) (fromId : Z) : list Entry.t :=
  suffixFrom fromId (logs r).

(** Modelled from the spec: [appendLogs(entries)], absent from the
    sources: the entries are added at the end of the log. *)
Definition appendLogs (r : Raft) (entries : list Entry.t) : Raft :=
  set_logs r (logs r ++ entries).

(** Modelled from the spec: [deleteLogs(id)] (the spec's
    [deleteLogsAfter]), absent from the sources, "removes all entries
    with id > id". *)
Definition deleteLogs (r : Raft) (i : Z) : Raft :=
  set_logs r (filter (λ e, Entry.Id e ≤ i) (logs r)).

(** Modelled from the spec: [setCommitIndex(n)], absent from the
    sources. *)
Definition setCommitIndex (r : Raft) (n : Z) : Raft := set_commitIndex r n.

(** Modelled from the spec: [setNextAndMatchIndex(peerId, next, match)]
    (the spec's [setNextAndMatch]), absent from the sources. *)
Definition setNextAndMatchIndex (r : Raft) (peerId next mtch : Z) : Raft :=
  set_matchIndex (set_nextIndex r (<[peerId := next]> (nextIndex r)))
    (<[peerId := mtch]> (matchIndex r)).

(** Modelled from the spec: [applyLogs(sink)], absent from the sources,
    "delivers every entry with lastApplied < id ≤ commitIndex to the sink
    in order, then advances lastApplied". *)
Definition applyLogs (r : Raft) : Raft :=
  let delivered :=
    filter (λ e, lastApplied r < Entry.Id e ≤ commitIndex r) (logs r) in
  set_lastApplied (set_applyCh r (applyCh r ++ delivered))
    (Z.max (lastApplied r) (commitIndex r)).

(** ** RPC handlers of [raft.go] *)

Global Instance RaftState_eq_dec : EqDecision RaftState.
Proof. solve_decision. Defined.

(** [applyCommand]: the result is the pair Go returns, a response or an
    error. *)
Definition applyCommand (r : Raft) (req : ApplyCommandRequest.t)
  : Raft * (ApplyCommandResponse.t + error) :=
  if bool_decide (state r ≠ Leader) then (r, inr errNotLeader)
  else
    let '(id0, _) := getLastLog r in
    let newEntry :=
      Entry.mk (u64_add id0 1) (currentTerm r) (ApplyCommandRequest.Data req) in
    let r := appendLogs r [newEntry] in
    (r, inl (ApplyCommandResponse.mk newEntry)).

(** The reconciliation loop of [appendEntries] over [entries] from
    position [i] on: it stops at the first entry that the log lacks, or
    holds with another term (the log is then cut down to the ids below
    it), and yields [startIndex] with the node. *)
Fixpoint appendEntries_walk (r : Raft) (entries : list Entry.t) (i : nat)
    (startIndex : nat) : nat * Raft :=
  match entries with
  | [] => (startIndex, r)
  | reqEntry :: rest =>
      match getLog r (Entry.Id reqEntry) with
      | Some rEntry =>
          if negb (Entry.Term rEntry =? Entry.Term reqEntry)
          then (i, deleteLogs r (u64_sub (Entry.Id reqEntry) 1))
          else appendEntries_walk r rest (S i) startIndex
      | None => (i, r)
      end
  end.

(** [appendEntries], lines 86 to 104: the heartbeat is recorded, a higher
    term is adopted, and a candidate gives way to the leader.  [now] is
    the reading of the clock the handler takes. *)
Definition appendEntries_stepDown (r : Raft) (req : AppendEntriesRequest.t)
    (now : Z) : Raft :=
  let r := set_lastHeartbeat r now in
  let r := if currentTerm r <? AppendEntriesRequest.Term req
           then toFollower r (AppendEntriesRequest.Term req) else r in
  if (currentTerm r <=? AppendEntriesRequest.Term req)
     && bool_decide (state r = Candidate)
  then toFollower r (AppendEntriesRequest.Term req) else r.

(** [appendEntries], lines 106 to 117: whether the request is turned down
    because the entry before the new ones is missing or of another
    term. *)
Definition appendEntries_prevMismatch (r : Raft) (req : AppendEntriesRequest.t)
  : bool :=
  let prevLogId := AppendEntriesRequest.PrevLogId req in
  let prevLogTerm := AppendEntriesRequest.PrevLogTerm req in
  negb (prevLogId =? 0) && negb (prevLogTerm =? 0)
  && match getLog r prevLogId with
     | None => true
     | Some log => negb (Entry.Term log =? prevLogTerm)
     end.

(** [appendEntries], lines 119 to 141: reconciliation of the log with the
    entries of the request. *)
Definition appendEntries_store (r : Raft) (req : AppendEntriesRequest.t)
  : Raft :=
  let entries := AppendEntriesRequest.Entries req in
  if negb (len entries =? 0) then
    let '(startIndex, r) :=
      appendEntries_walk r entries 0 (length entries - 1)%nat in
    appendLogs r (drop startIndex entries)
  else r.

(** [appendEntries], lines 148 to 159: the commit index follows the
    leader's. *)
Definition appendEntries_commit (r : Raft) (req : AppendEntriesRequest.t)
  : Raft :=
  if commitIndex r <? AppendEntriesRequest.LeaderCommitId req then
    let leaderCommitId := AppendEntriesRequest.LeaderCommitId req in
    let '(lastId, _) := getLastLog r in
    let r := if leaderCommitId <? lastId
             then setCommitIndex r leaderCommitId
             else setCommitIndex r lastId in
    applyLogs r
  else r.

(** [appendEntries]: the four parts in the order of the source.  The
    error Go returns beside the response is always nil. *)
Definition appendEntries (r : Raft) (req : AppendEntriesRequest.t) (now : Z)
  : Raft * AppendEntriesResponse.t :=
  if AppendEntriesRequest.Term req <? currentTerm r then
    (r, AppendEntriesResponse.mk (currentTerm r) false)
  else
    let r := appendEntries_stepDown r req now in
    if appendEntries_prevMismatch r req
    then (r, AppendEntriesResponse.mk (currentTerm r) false)
    else
      let r := appendEntries_store r req in
      let r := appendEntries_commit r req in
      (r, AppendEntriesResponse.mk (currentTerm r) true).

(** [requestVote]; the error Go returns beside the response is always
    nil. *)
Definition requestVote (r : Raft) (req : RequestVoteRequest.t) (now : Z)
  : Raft * RequestVoteResponse.t :=
  if RequestVoteRequest.Term req <? currentTerm r then
    (r, RequestVoteResponse.mk (currentTerm r) false)
  else
    let r := if currentTerm r <? RequestVoteRequest.Term req
             then toFollower r (RequestVoteRequest.Term req) else r in
    if negb (votedFor r =? 0)
       && negb (votedFor r =? RequestVoteRequest.CandidateId req)
    then (r, RequestVoteResponse.mk (currentTerm r) false)
    else
      let '(localLastId, localLastTerm) := getLastLog r in
      let candidateLastId := RequestVoteRequest.LastLogId req in
      let candidateLastTerm := RequestVoteRequest.LastLogTerm req in
      if (candidateLastTerm <? localLastTerm)
         || ((localLastTerm =? candidateLastTerm)
             && (candidateLastId <? localLastId))
      then (r, RequestVoteResponse.mk (currentTerm r) false)
      else
        let r := voteFor r (RequestVoteRequest.CandidateId req) false in
        let r := set_lastHeartbeat r now in
        (r, RequestVoteResponse.mk (currentTerm r) true).

(** ** Follower and candidate *)

Definition handleFollowerHeartbeatTimeout (r : Raft) : Raft := toCandidate r.

Module voteResult.
Record t := mk { Response : RequestVoteResponse.t; peerId : Z }.
Definition Term (v : t) : Z := RequestVoteResponse.Term (Response v).
Definition VoteGranted (v : t) : bool :=
    RequestVoteResponse.VoteGranted (Response v).
End voteResult.

(** The size of the full cluster: the peers and the node itself. *)
Definition clusterSize (r : Raft) : Z := len (map_to_list (peers r)) + 1.

(** [votesNeeded] as [runCandidate] computes it.  The operands are counts
    of peers, never negative and far from the bounds of [int], so Go's
    truncated division is [Z.quot] without wrap-around. *)
Definition votesNeeded (r : Raft) : Z :=
  Z.quot (len (map_to_list (peers r)) + 1) 2 + 1.

(** [voteForSelf]: the node and the counter behind [grantedVotes]. *)
Definition voteForSelf (r : Raft) (grantedVotes : Z) : Raft * Z :=
  let r := voteFor r (id r) true in
  (r, int_add grantedVotes 1).

(** [handleVoteResult]: the node and the counter behind [grantedVotes]. *)
Definition handleVoteResult (r : Raft) (vote : voteResult.t)
    (grantedVotes : Z) (votesNeeded : Z) : Raft * Z :=
  let r := if currentTerm r <? voteResult.Term vote
           then toFollower r (voteResult.Term vote) else r in
  let grantedVotes := if voteResult.VoteGranted vote
                      then int_add grantedVotes 1 else grantedVotes in
  let r := if votesNeeded <=? grantedVotes then toLeader r else r in
  (r, grantedVotes).

(** ** Leader *)

Module appendEntriesResult.
Record t := mk {
    Response : AppendEntriesResponse.t;
    req : AppendEntriesRequest.t;
    peerId : Z
  }.
Definition Term (v : t) : Z := AppendEntriesResponse.Term (Response v).
Definition Success (v : t) : bool :=
    AppendEntriesResponse.Success (Response v).
End appendEntriesResult.

(** The first statements of [runLeader]: [nextIndex] and [matchIndex] are
    reset for every peer.  Go ranges over the map in no fixed order; the
    writes are to distinct keys, so the order is immaterial. *)
Definition runLeader_reset (r : Raft) : Raft :=
  let '(lastLogId, _) := getLastLog r in
  foldr (λ kv r,
           set_matchIndex
             (set_nextIndex r (<[kv.1 := u64_add lastLogId 1]> (nextIndex r)))
             (<[kv.1 := 0]> (matchIndex r)))
        r (map_to_list (peers r)).

(** The inner loop of [handleAppendEntriesResult]: [replicas] starts at 1
    and is incremented once per peer whose [matchIndex] has reached [N].
    It never exceeds the number of peers plus one, so the [int] does not
    wrap. *)
Definition countReplicas (r : Raft) (N : Z) : Z :=
  foldr (λ kv replicas,
           if N <=? mapGet (matchIndex r) kv.1 then replicas + 1
           else replicas)
        1 (map_to_list (peers r)).

(** The outer loop of [handleAppendEntriesResult], [i] running from
    [len(logs)-1] down to 0: [rlogs] lists [logs[i]] in that order. *)
Fixpoint commitScan (r : Raft) (replicasNeeded : Z) (rlogs : list Entry.t)
  : Raft :=
  match rlogs with
  | [] => r
  | e :: rest =>
      let N := Entry.Id e in
      if N <=? commitIndex r then r
      else if negb (Entry.Term e =? currentTerm r)
      then commitScan r replicasNeeded rest
      else
        let replicas := countReplicas r N in
        if replicasNeeded <=? replicas
        then applyLogs (setCommitIndex r N)
        else commitScan r replicasNeeded rest
  end.

Definition handleAppendEntriesResult (r : Raft)
    (result : appendEntriesResult.t) : Raft :=
  let r := if currentTerm r <? appendEntriesResult.Term result
           then toFollower r (appendEntriesResult.Term result) else r in
  let entries := AppendEntriesRequest.Entries (appendEntriesResult.req result) in
  let r :=
    if negb (appendEntriesResult.Success result) then
      let peerId := appendEntriesResult.peerId result in
      let nextIndex0 := u64_sub (mapGet (nextIndex r) peerId) 1 in
      let matchIndex0 := mapGet (matchIndex r) peerId in
      setNextAndMatchIndex r peerId nextIndex0 matchIndex0
    else if negb (len entries =? 0) then
      let peerId := appendEntriesResult.peerId result in
      match last entries with
      | Some lastSent =>
          let nextIndex0 := u64_add (Entry.Id lastSent) 1 in
          let matchIndex0 := Entry.Id lastSent in
          setNextAndMatchIndex r peerId nextIndex0 matchIndex0
      | None => r
      end
    else r in
  let replicasNeeded := Z.quot (len (map_to_list (peers r)) + 1) 2 + 1 in
  let logs0 := getLogs r (u64_add (commitIndex r) 1) in
  commitScan r replicasNeeded (reverse logs0).

(** ** Requests a node sends, and the follower's timer *)

(** The request [broadcastRequestVote] builds once and sends to every
    peer. *)
Definition broadcastRequestVote_request (r : Raft) : RequestVoteRequest.t :=
  let '(lastId, lastTerm) := getLastLog r in
  RequestVoteRequest.mk (currentTerm r) (id r) lastId lastTerm.

(** The request [broadcastAppendEntries] builds for peer [peerId]: the
    entries from [nextIndex] on with the entry before them, or a
    heartbeat when the peer is known to hold the whole log. *)
Definition broadcastAppendEntries_request (r : Raft) (peerId : Z)
  : AppendEntriesRequest.t :=
  let nextIndex0 := mapGet (nextIndex r) peerId in
  let matchIndex0 := mapGet (matchIndex r) peerId in
  let '(lastId, _) := getLastLog r in
  if matchIndex0 <? lastId then
    let entries := getLogs r nextIndex0 in
    match getLog r (u64_sub nextIndex0 1) with
    | None =>
        AppendEntriesRequest.mk (currentTerm r) (id r) 0 0 entries
          (commitIndex r)
    | Some prev =>
        AppendEntriesRequest.mk (currentTerm r) (id r) (Entry.Id prev)
          (Entry.Term prev) entries (commitIndex r)
    end
  else AppendEntriesRequest.mk (currentTerm r) (id r) 0 0 [] (commitIndex r).

(** [broadcastAppendEntries]: one request per peer; the sending itself
    is left to the transport. *)
Definition broadcastAppendEntries (r : Raft)
  : list (Z * AppendEntriesRequest.t) :=
  (λ kv : Z * Peer, (kv.1, broadcastAppendEntries_request r kv.1))
    <$> map_to_list (peers r).

(** The timer branch of [runFollower]: [now] is the reading of the clock
    when the timer fires and [heartbeatTimeout] the configured
    [HeartbeatTimeout], both in the unit of the clock. *)
Definition runFollower_timeout (r : Raft) (now heartbeatTimeout : Z) : Raft :=
  if heartbeatTimeout <? now - lastHeartbeat r
  then handleFollowerHeartbeatTimeout r else r.

(** ** Reachable states

    The states a node passes through: it starts as [NewRaft] builds it,
    and every step is one call of a handler or one of the role
    transitions of the main loop, whatever the contents of the message
    handled. *)
Inductive reachable (id0 : Z) (peers0 : gmap Z Peer) : Raft → Prop :=
| reach_new now :
    reachable id0 peers0 (NewRaft id0 peers0 now)
| reach_applyCommand r req :
    reachable id0 peers0 r → reachable id0 peers0 (applyCommand r req).1
| reach_appendEntries r req now :
    reachable id0 peers0 r → reachable id0 peers0 (appendEntries r req now).1
| reach_requestVote r req now :
    reachable id0 peers0 r → reachable id0 peers0 (requestVote r req now).1
| reach_handleVoteResult r vote granted needed :
    reachable id0 peers0 r →
    reachable id0 peers0 (handleVoteResult r vote granted needed).1
| reach_handleAppendEntriesResult r result :
    reachable id0 peers0 r →
    reachable id0 peers0 (handleAppendEntriesResult r result)
| reach_heartbeatTimeout r :
    reachable id0 peers0 r →
    reachable id0 peers0 (handleFollowerHeartbeatTimeout r)
| reach_voteForSelf r granted :
    reachable id0 peers0 r → reachable id0 peers0 (voteForSelf r granted).1
| reach_runLeader r :
    reachable id0 peers0 r → reachable id0 peers0 (runLeader_reset r).

(** ** Well-formed logs and states *)

(** The data model's invariant on a log: the entry at position [i]
    (counted from 1) has id [i]. *)
Definition log_wf (l : list Entry.t) : Prop :=
  ∀ (i : nat) e, l !! i = Some e → Entry.Id e = Z.of_nat i + 1.

(** Entries in the order of their ids. *)
Definition id_lt (a b : Entry.t) : Prop := Entry.Id a < Entry.Id b.

(** ** Notions the properties are stated with *)

(** The node once a request of term [term] has gone through the term
    adoption of a handler: a higher term makes it a follower of that
    term, with no vote cast. *)
Definition adoptTerm (r : Raft) (term : Z) : Raft :=
  if currentTerm r <? term then toFollower r term else r.

(** The candidate's log is at least as up-to-date as the receiver's. *)
Definition upToDate (req : RequestVoteRequest.t) (r : Raft) : Prop :=
  (getLastLog r).2 < RequestVoteRequest.LastLogTerm req
  ∨ (RequestVoteRequest.LastLogTerm req = (getLastLog r).2
     ∧ (getLastLog r).1 ≤ RequestVoteRequest.LastLogId req).

(** The node after the first two parts of [handleAppendEntriesResult]:
    term adoption and the update of the peer's indexes. *)
Definition afterIndexUpdate (r : Raft) (result : appendEntriesResult.t) : Raft :=
  let r1 := adoptTerm r (appendEntriesResult.Term result) in
  let peer := appendEntriesResult.peerId result in
  if negb (appendEntriesResult.Success result) then
    setNextAndMatchIndex r1 peer (u64_sub (mapGet (nextIndex r1) peer) 1)
      (mapGet (matchIndex r1) peer)
  else
    match last (AppendEntriesRequest.Entries (appendEntriesResult.req result)) with
    | Some lastSent =>
        setNextAndMatchIndex r1 peer (u64_add (Entry.Id lastSent) 1)
          (Entry.Id lastSent)
    | None => r1
    end.

(** The majority of a cluster of [n] nodes. *)
Definition majority (n : Z) : Z := n / 2 + 1.


(** What makes the scan stop at an entry [e] and commit it. *)
Definition commits (r : Raft) (needed : Z) (e : Entry.t) : Prop :=
  commitIndex r < Entry.Id e
  ∧ Entry.Term e = currentTerm r
  ∧ needed ≤ countReplicas r (Entry.Id e).


(** ** Concrete nodes and messages *)

(** The peers of node 1 in a cluster of three. *)
Definition peers23 : gmap Z Peer := <[2 := PeerClient]> (<[3 := PeerClient]> ∅).

Definition entry_a : Entry.t := Entry.mk 1 1 "a".
Definition entry_b : Entry.t := Entry.mk 2 1 "b".
Definition entry_c : Entry.t := Entry.mk 3 1 "c".
Definition entry_b' : Entry.t := Entry.mk 2 2 "b'".

(** A leader of term 1 in a cluster of three, about to send entry 2 to
    peer 2. *)
Definition leader_term1 : Raft :=
  mkRaft Leader 1 1 [entry_a; entry_b] 0 0
    (<[2 := 2]> (<[3 := 3]> ∅)) (<[2 := 1]> (<[3 := 2]> ∅)) 1 peers23 0 [].

(** A failed response of term 2 from peer 2. *)
Definition failure_term2 : appendEntriesResult.t :=
  appendEntriesResult.mk (AppendEntriesResponse.mk 2 false)
    (AppendEntriesRequest.mk 1 1 1 1 [entry_b] 0) 2.

(** The follower of a cluster of three after a first AppendEntries that
    brings entries 1 to 3 of term 1, all committed by the leader. *)
Definition follower_three_committed : Raft :=
  (appendEntries (NewRaft 3 peers23 0)
     (AppendEntriesRequest.mk 1 1 0 0 [entry_a; entry_b; entry_c] 3) 5).1.

(** The leader of term 3 of a cluster of three: entries 4 and 5, of term
    2, are on peer 2 as well, hence on a majority; entries 1 to 3 are
    committed. *)
Definition leader_term3 : Raft :=
  mkRaft Leader 3 1
    [entry_a; entry_b; entry_c; Entry.mk 4 2 "d"; Entry.mk 5 2 "e"] 3 3
    (<[2 := 6]> (<[3 := 4]> ∅)) (<[2 := 5]> (<[3 := 3]> ∅)) 1 peers23 0
    [entry_a; entry_b; entry_c].

(** A successful response of peer 2 to a heartbeat of term 3. *)
Definition success_peer2 : appendEntriesResult.t :=
  appendEntriesResult.mk (AppendEntriesResponse.mk 3 true)
    (AppendEntriesRequest.mk 3 1 0 0 [] 3) 2.





(** * Properties *)

(** ** Arithmetic *)

Lemma u64_small x : is_u64 x → u64 x = x.
Proof. intros Hx. unfold u64. apply Z.mod_small. exact Hx. Qed.

Lemma int_wrap_small x : int_min ≤ x ≤ int_max → int_wrap x = x.
Proof.
  unfold int_min, int_max, int_wrap. intros Hx.
  rewrite Z.mod_small; lia.
Qed.

Lemma len_nonneg {A} (l : list A) : 0 ≤ len l.
Proof. unfold len. lia. Qed.

(** ** The election threshold *)

Lemma votesNeeded_floor r : votesNeeded r = clusterSize r / 2 + 1.
Proof.
  unfold votesNeeded, clusterSize.
  rewrite Z.quot_div_nonneg; [reflexivity | | lia].
  pose proof (len_nonneg (map_to_list (peers r))). lia.
Qed.

(** C2, as the code has it: in [runCandidate] the number of granted votes
    that makes the node Leader is [⌊N/2⌋ + 1] with [N = len(peers) + 1]
    the size of the full cluster, the least number of votes that is more
    than half of [N]; [handleVoteResult], called with it, turns the node
    into a Leader as soon as the count has reached it. *)
Theorem votesNeeded_strict_majority (r : Raft) :
  votesNeeded r = clusterSize r / 2 + 1
  ∧ clusterSize r < 2 * votesNeeded r
  ∧ 2 * (votesNeeded r - 1) ≤ clusterSize r
  ∧ ∀ vote granted,
      let out := handleVoteResult r vote granted (votesNeeded r) in
      (clusterSize r / 2 + 1 ≤ out.2 → state out.1 = Leader)
      ∧ (out.2 < clusterSize r / 2 + 1 → state out.1 ≠ Leader ∨ state r = Leader).
Proof.
  pose proof (votesNeeded_floor r) as Hv.
  assert (0 < clusterSize r) as Hpos.
  { unfold clusterSize. pose proof (len_nonneg (map_to_list (peers r))). lia. }
  repeat split.
  - exact Hv.
  - rewrite Hv. pose proof (Z.mod_pos_bound (clusterSize r) 2).
    pose proof (Z.div_mod (clusterSize r) 2). lia.
  - rewrite Hv. pose proof (Z.mod_pos_bound (clusterSize r) 2).
    pose proof (Z.div_mod (clusterSize r) 2). lia.
  - rewrite <- Hv. unfold handleVoteResult. cbn [fst snd]. intros Hle.
    apply Z.leb_le in Hle. rewrite Hle. reflexivity.
  - rewrite <- Hv. unfold handleVoteResult. cbn [fst snd]. intros Hlt.
    apply Z.leb_gt in Hlt. rewrite Hlt.
    destruct (currentTerm r <? voteResult.Term vote); cbn.
    + left. discriminate.
    + destruct (state r); [left; discriminate | left; discriminate | right; reflexivity].
Qed.

(** C2, as the claim states it, fails for a node with two peers: the
    code asks for 2 votes out of a cluster of 3, the claim's formula
    [⌊(N+1)/2⌋ + 1] for 3. *)
Lemma votesNeeded_three_nodes :
  clusterSize (NewRaft 1 peers23 0) = 3
  ∧ votesNeeded (NewRaft 1 peers23 0) = 2
  ∧ (clusterSize (NewRaft 1 peers23 0) + 1) / 2 + 1 = 3.
Proof. vm_compute. repeat split. Qed.

(** ** ApplyCommand *)

(** C9: [applyCommand] returns the NotLeader error, the node unchanged,
    exactly when the role is not Leader; a Leader appends one entry with
    id the last log id plus 1 (in [uint64]), the current term and the
    request's data, returns that entry, and changes no other field. *)
Theorem applyCommand_spec (r : Raft) (req : ApplyCommandRequest.t) :
  ((applyCommand r req).2 = inr errNotLeader ↔ state r ≠ Leader)
  ∧ (state r ≠ Leader → applyCommand r req = (r, inr errNotLeader))
  ∧ (state r = Leader →
     let newEntry :=
       Entry.mk (u64_add (getLastLog r).1 1) (currentTerm r)
                (ApplyCommandRequest.Data req) in
     (applyCommand r req).2 = inl (ApplyCommandResponse.mk newEntry)
     ∧ (applyCommand r req).1 = set_logs r (logs r ++ [newEntry])
     ∧ ((getLastLog r).1 + 1 < u64_modulus → 0 ≤ (getLastLog r).1 →
        Entry.Id newEntry = (getLastLog r).1 + 1)
     ∧ currentTerm (applyCommand r req).1 = currentTerm r
     ∧ votedFor (applyCommand r req).1 = votedFor r
     ∧ commitIndex (applyCommand r req).1 = commitIndex r).
Proof.
  unfold applyCommand.
  destruct (getLastLog r) as [id0 term0] eqn:Hlast.
  destruct (bool_decide (state r ≠ Leader)) eqn:Hrole.
  - apply bool_decide_eq_true in Hrole. cbn [fst snd].
    split; [tauto|]. split; [reflexivity|]. intros Hl. contradiction.
  - apply bool_decide_eq_false in Hrole. cbn [fst snd].
    assert (state r = Leader) as Hl
      by (destruct (decide (state r = Leader)); [assumption | contradiction]).
    split; [split; [discriminate | intros Hn; contradiction]|].
    split; [intros Hn; contradiction|].
    intros _. cbn. repeat split.
    intros Hlt Hge. unfold u64_add. apply u64_small. unfold is_u64. lia.
Qed.

(** ** Vote results *)

(** C10: a RequestVote response that carries a term above [currentTerm]
    together with [voteGranted = true] is counted: the node steps down to
    Follower at the higher term and the grant total is still incremented;
    when the total thereby reaches [votesNeeded], [toLeader] runs and the
    node ends the call as Leader at the new term. *)
Theorem handleVoteResult_higher_term_grant
    (r : Raft) (vote : voteResult.t) (granted needed : Z) :
  currentTerm r < voteResult.Term vote →
  voteResult.VoteGranted vote = true →
  let out := handleVoteResult r vote granted needed in
  out.2 = int_add granted 1
  ∧ (int_min ≤ granted < int_max → out.2 = granted + 1)
  ∧ currentTerm out.1 = voteResult.Term vote
  ∧ votedFor out.1 = 0
  ∧ (needed ≤ out.2 → state out.1 = Leader)
  ∧ (out.2 < needed → state out.1 = Follower).
Proof.
  intros Hterm Hgrant. unfold handleVoteResult.
  apply Z.ltb_lt in Hterm. rewrite Hterm, Hgrant. cbn [fst snd].
  split; [reflexivity|].
  split.
  { intros Hg. unfold int_add. apply int_wrap_small.
    unfold int_min, int_max in *. lia. }
  destruct (needed <=? int_add granted 1) eqn:Hcmp; cbn.
  - repeat split; try reflexivity. apply Z.leb_le in Hcmp. lia.
  - repeat split; try reflexivity. apply Z.leb_gt in Hcmp. lia.
Qed.

(** A candidate at term 1 that holds its own vote, in a cluster of three:
    one response with term 2 and the vote granted makes it Leader of
    term 2. *)
Lemma handleVoteResult_higher_term_grant_witness :
  state (handleVoteResult
           (mkRaft Candidate 1 1 [] 0 0 ∅ ∅ 1 peers23 0 [])
           (voteResult.mk (RequestVoteResponse.mk 2 true) 2) 1 2).1 = Leader.
Proof.
  apply (handleVoteResult_higher_term_grant
           (mkRaft Candidate 1 1 [] 0 0 ∅ ∅ 1 peers23 0 [])
           (voteResult.mk (RequestVoteResponse.mk 2 true) 2) 1 2).
  - reflexivity.
  - reflexivity.
  - vm_compute. discriminate.
Defined.

(** ** Case analysis on the tests of the handlers *)

Ltac case_cmp :=
  match goal with
  | |- context [?a <? ?b] => destruct (Z.ltb_spec a b)
  | |- context [?a <=? ?b] => destruct (Z.leb_spec a b)
  | |- context [?a =? ?b] => destruct (Z.eqb_spec a b)
  end.

(** ** RequestVote *)

Lemma getLastLog_adoptTerm r term : getLastLog (adoptTerm r term) = getLastLog r.
Proof. unfold adoptTerm. case_cmp; reflexivity. Qed.

(** C7, as the code has it: with [r1] the node after term adoption,
    [requestVote] grants the vote exactly when the request's term is not
    below [currentTerm], [votedFor] is 0 or the candidate, and the
    candidate's log is at least as up-to-date as the receiver's.  A
    granted vote is recorded ([votedFor] becomes the candidate) and
    answered [{currentTerm, true}]; in every other case the answer is
    [{currentTerm, false}] and the node is left as term adoption made
    it: [votedFor] is unchanged when the request's term is not above
    [currentTerm], and reset to 0 when a higher term was adopted. *)
Theorem requestVote_grant_rule
    (r : Raft) (req : RequestVoteRequest.t) (now : Z) :
  let r1 := adoptTerm r (RequestVoteRequest.Term req) in
  let out := requestVote r req now in
  (RequestVoteResponse.VoteGranted out.2 = true ↔
     currentTerm r1 ≤ RequestVoteRequest.Term req
     ∧ (votedFor r1 = 0 ∨ votedFor r1 = RequestVoteRequest.CandidateId req)
     ∧ upToDate req r1)
  ∧ (RequestVoteResponse.VoteGranted out.2 = true →
       out.2 = RequestVoteResponse.mk (currentTerm out.1) true
       ∧ votedFor out.1 = RequestVoteRequest.CandidateId req
       ∧ out.1 = set_lastHeartbeat
                   (set_votedFor r1 (RequestVoteRequest.CandidateId req)) now)
  ∧ (RequestVoteResponse.VoteGranted out.2 = false →
       out.2 = RequestVoteResponse.mk (currentTerm out.1) false
       ∧ out.1 = r1
       ∧ (RequestVoteRequest.Term req ≤ currentTerm r →
          votedFor out.1 = votedFor r)
       ∧ (currentTerm r < RequestVoteRequest.Term req → votedFor out.1 = 0))
  ∧ (RequestVoteRequest.Term req ≤ currentTerm r → r1 = r).
Proof.
  cbv zeta. unfold upToDate. rewrite getLastLog_adoptTerm.
  unfold requestVote, adoptTerm.
  destruct (getLastLog r) as [localLastId localLastTerm] eqn:Hlast.
  assert (∀ t, getLastLog (toFollower r t) = (localLastId, localLastTerm)) as Hf
    by (intros t; exact Hlast).
  repeat case_cmp; cbn [negb andb orb fst snd];
    rewrite ?Hlast, ?Hf; cbn [negb andb orb fst snd];
    repeat case_cmp; cbn [negb andb orb fst snd];
    cbn [toFollower voteFor set_votedFor set_currentTerm set_state
         set_lastHeartbeat votedFor currentTerm
         RequestVoteResponse.VoteGranted] in *;
    (repeat split; intros; try reflexivity; try discriminate; try lia;
     try tauto).
Qed.

(** C7, as the claim states it, fails on a denied request of a higher
    term: a follower at term 1 that voted for node 3 receives the request
    of candidate 7 at term 2, whose log is behind its own; the vote is
    denied, and [votedFor] has gone from 3 to 0 with the adoption of
    term 2. *)
Lemma requestVote_denial_clears_vote :
  votedFor (mkRaft Follower 1 3 [entry_a] 0 0 ∅ ∅ 1 peers23 0 []) = 3
  ∧ (requestVote (mkRaft Follower 1 3 [entry_a] 0 0 ∅ ∅ 1 peers23 0 [])
       (RequestVoteRequest.mk 2 7 0 0) 9).2
    = RequestVoteResponse.mk 2 false
  ∧ votedFor (requestVote (mkRaft Follower 1 3 [entry_a] 0 0 ∅ ∅ 1 peers23 0 [])
                (RequestVoteRequest.mk 2 7 0 0) 9).1 = 0.
Proof. vm_compute. repeat split. Qed.

(** ** AppendEntries: the parts of the handler *)

Lemma getLog_logs r r' i : logs r = logs r' → getLog r i = getLog r' i.
Proof. unfold getLog. intros ->. reflexivity. Qed.

Lemma getLog_None r i : getLog r i = None ↔ ∀ e, e ∈ logs r → Entry.Id e ≠ i.
Proof.
  unfold getLog. rewrite fmap_None, list_find_None, Forall_forall.
  reflexivity.
Qed.

Lemma stepDown_logs r req now :
  logs (appendEntries_stepDown r req now) = logs r.
Proof.
  unfold appendEntries_stepDown.
  repeat match goal with
         | |- context [if ?b then _ else _] => destruct b
         end; reflexivity.
Qed.

Lemma stepDown_commitIndex r req now :
  commitIndex (appendEntries_stepDown r req now) = commitIndex r.
Proof.
  unfold appendEntries_stepDown.
  repeat match goal with
         | |- context [if ?b then _ else _] => destruct b
         end; reflexivity.
Qed.

Lemma stepDown_currentTerm r req now :
  currentTerm r ≤ AppendEntriesRequest.Term req →
  currentTerm (appendEntries_stepDown r req now) = AppendEntriesRequest.Term req.
Proof.
  intros Hle. unfold appendEntries_stepDown.
  cbn [set_lastHeartbeat currentTerm state].
  case_cmp; cbn [toFollower set_votedFor set_currentTerm set_state
                 currentTerm state].
  - rewrite Z.leb_refl. cbn. reflexivity.
  - destruct (_ && _); cbn; lia.
Qed.

Lemma walk_currentTerm r entries i d :
  currentTerm (appendEntries_walk r entries i d).2 = currentTerm r.
Proof.
  revert i. induction entries as [|e rest IH]; intros i; cbn; [reflexivity|].
  destruct (getLog r (Entry.Id e)) as [rEntry|]; [|reflexivity].
  destruct (negb _); [reflexivity | apply IH].
Qed.

Lemma store_currentTerm r req :
  currentTerm (appendEntries_store r req) = currentTerm r.
Proof.
  unfold appendEntries_store. destruct (negb _); [|reflexivity].
  pose proof (walk_currentTerm r (AppendEntriesRequest.Entries req) 0
                (length (AppendEntriesRequest.Entries req) - 1)%nat) as Hw.
  destruct (appendEntries_walk _ _ _ _) as [startIndex r']. exact Hw.
Qed.

Lemma commit_currentTerm r req :
  currentTerm (appendEntries_commit r req) = currentTerm r.
Proof.
  unfold appendEntries_commit. case_cmp; [|reflexivity].
  destruct (getLastLog r) as [lastId lastTerm]. case_cmp; reflexivity.
Qed.

Lemma commit_logs r req : logs (appendEntries_commit r req) = logs r.
Proof.
  unfold appendEntries_commit. case_cmp; [|reflexivity].
  destruct (getLastLog r) as [lastId lastTerm]. case_cmp; reflexivity.
Qed.

(** ** AppendEntries: the check of the previous entry *)

(** C5, as the code has it: a request of a term not below [currentTerm]
    whose [prevLogId] and [prevLogTerm] are both non-zero, and such that
    the log holds no entry with id [prevLogId] or holds it with another
    term, is answered [{currentTerm, false}] ([currentTerm] being by then
    the request's term), and the log and the commit index are left as
    they were. *)
Theorem appendEntries_prev_mismatch
    (r : Raft) (req : AppendEntriesRequest.t) (now : Z) :
  currentTerm r ≤ AppendEntriesRequest.Term req →
  AppendEntriesRequest.PrevLogId req ≠ 0 →
  AppendEntriesRequest.PrevLogTerm req ≠ 0 →
  ((∀ e, e ∈ logs r → Entry.Id e ≠ AppendEntriesRequest.PrevLogId req)
   ∨ ∃ e, getLog r (AppendEntriesRequest.PrevLogId req) = Some e
          ∧ Entry.Term e ≠ AppendEntriesRequest.PrevLogTerm req) →
  let out := appendEntries r req now in
  out.2 = AppendEntriesResponse.mk (currentTerm out.1) false
  ∧ currentTerm out.1 = AppendEntriesRequest.Term req
  ∧ logs out.1 = logs r
  ∧ commitIndex out.1 = commitIndex r.
Proof.
  intros Hterm Hid Hpt Hprev. cbv zeta. unfold appendEntries.
  case_cmp; [lia|].
  assert (appendEntries_prevMismatch (appendEntries_stepDown r req now) req
          = true) as ->.
  { unfold appendEntries_prevMismatch.
    rewrite (getLog_logs _ r) by apply stepDown_logs.
    destruct (Z.eqb_spec (AppendEntriesRequest.PrevLogId req) 0); [lia|].
    destruct (Z.eqb_spec (AppendEntriesRequest.PrevLogTerm req) 0); [lia|].
    cbn. destruct Hprev as [Hnone | (e & -> & Hne)].
    - apply getLog_None in Hnone. rewrite Hnone. reflexivity.
    - case_cmp; [contradiction | reflexivity]. }
  cbn [fst snd]. split; [reflexivity|].
  split; [apply stepDown_currentTerm; exact Hterm|].
  split; [apply stepDown_logs | apply stepDown_commitIndex].
Qed.

(** A follower at term 1 holding entry 1 of term 1 turns down a request
    of term 1 whose previous entry (id 1) is said to be of term 2. *)
Lemma appendEntries_prev_mismatch_witness :
  (appendEntries (mkRaft Follower 1 0 [entry_a] 0 0 ∅ ∅ 1 peers23 0 [])
     (AppendEntriesRequest.mk 1 2 1 2 [Entry.mk 2 1 "b"] 0) 7).2
  = AppendEntriesResponse.mk 1 false.
Proof.
  apply (appendEntries_prev_mismatch
           (mkRaft Follower 1 0 [entry_a] 0 0 ∅ ∅ 1 peers23 0 [])
           (AppendEntriesRequest.mk 1 2 1 2 [Entry.mk 2 1 "b"] 0) 7).
  - vm_compute. discriminate.
  - discriminate.
  - discriminate.
  - right. exists entry_a. split; [reflexivity | discriminate].
Defined.

(** C5, as the claim states it, fails when [prevLogTerm] is 0: the check
    is skipped.  A follower with an empty log receives a request with
    [prevLogId = 1] and [prevLogTerm = 0]; it holds no entry 1, and yet it
    answers success and stores the entries. *)
Lemma appendEntries_prev_unchecked :
  getLog (mkRaft Follower 1 0 [] 0 0 ∅ ∅ 1 peers23 0 []) 1 = None
  ∧ (appendEntries (mkRaft Follower 1 0 [] 0 0 ∅ ∅ 1 peers23 0 [])
       (AppendEntriesRequest.mk 1 2 1 0 [Entry.mk 2 1 "b"] 0) 7).2
    = AppendEntriesResponse.mk 1 true
  ∧ logs (appendEntries (mkRaft Follower 1 0 [] 0 0 ∅ ∅ 1 peers23 0 [])
            (AppendEntriesRequest.mk 1 2 1 0 [Entry.mk 2 1 "b"] 0) 7).1
    = [Entry.mk 2 1 "b"].
Proof. vm_compute. repeat split. Qed.

(** ** AppendEntries: reconciliation of the log *)

(** C6: a node at a term up to 2 whose log is [(1,1,a),(2,1,b),(3,1,c)]
    handles an AppendEntries of term 2 with [prevLogId = 1],
    [prevLogTerm = 1] and the single entry [(2,2,b')]: the walk stops at
    position 0 and cuts the log down to [(1,1,a)] (entries 2 and 3 go,
    entry 1 stays), [(2,2,b')] is appended, and the answer is success at
    term 2. *)
Theorem appendEntries_conflicting_suffix
    (r : Raft) (leaderId leaderCommitId now : Z) :
  logs r = [entry_a; entry_b; entry_c] →
  currentTerm r ≤ 2 →
  let req := AppendEntriesRequest.mk 2 leaderId 1 1 [entry_b'] leaderCommitId in
  let out := appendEntries r req now in
  (let walked :=
     appendEntries_walk (appendEntries_stepDown r req now) [entry_b'] 0 0 in
   walked.1 = 0%nat ∧ logs walked.2 = [entry_a])
  ∧ logs out.1 = [entry_a; entry_b']
  ∧ out.2 = AppendEntriesResponse.mk 2 true.
Proof.
  intros Hlogs Hterm. cbv zeta.
  set (req := AppendEntriesRequest.mk 2 leaderId 1 1 [entry_b'] leaderCommitId).
  set (r1 := appendEntries_stepDown r req now).
  assert (logs r1 = [entry_a; entry_b; entry_c]) as Hlogs1
    by (unfold r1; rewrite stepDown_logs; exact Hlogs).
  assert (getLog r1 1 = Some entry_a) as Hget1
    by (unfold getLog; rewrite Hlogs1; reflexivity).
  assert (getLog r1 2 = Some entry_b) as Hget2
    by (unfold getLog; rewrite Hlogs1; reflexivity).
  assert (appendEntries_walk r1 [entry_b'] 0 0 = (0%nat, deleteLogs r1 1))
    as Hwalk.
  { cbn [appendEntries_walk]. change (Entry.Id entry_b') with 2.
    rewrite Hget2. reflexivity. }
  assert (logs (deleteLogs r1 1) = [entry_a]) as Hcut
    by (unfold deleteLogs; cbn [logs set_logs]; rewrite Hlogs1; reflexivity).
  split; [rewrite Hwalk; split; [reflexivity | exact Hcut]|].
  unfold appendEntries.
  change (AppendEntriesRequest.Term req) with 2.
  case_cmp; [lia|]. fold r1.
  assert (appendEntries_prevMismatch r1 req = false) as ->.
  { unfold appendEntries_prevMismatch.
    change (AppendEntriesRequest.PrevLogId req) with 1.
    rewrite Hget1. reflexivity. }
  cbn [fst snd].
  rewrite commit_logs, commit_currentTerm, store_currentTerm.
  split.
  - unfold appendEntries_store.
    change (AppendEntriesRequest.Entries req) with [entry_b'].
    change (length [entry_b'] - 1)%nat with 0%nat.
    change (negb (len [entry_b'] =? 0)) with true. cbn match.
    rewrite Hwalk. unfold appendLogs. cbn [logs set_logs drop].
    rewrite Hcut. reflexivity.
  - unfold r1. rewrite stepDown_currentTerm; [reflexivity|].
    exact Hterm.
Qed.

(** The follower of the scenario, at term 1. *)
Lemma appendEntries_conflicting_suffix_witness :
  logs (appendEntries
          (mkRaft Follower 1 0 [entry_a; entry_b; entry_c] 0 0 ∅ ∅ 3
                  peers23 0 [])
          (AppendEntriesRequest.mk 2 2 1 1 [entry_b'] 0) 7).1
  = [entry_a; entry_b'].
Proof.
  apply (appendEntries_conflicting_suffix
           (mkRaft Follower 1 0 [entry_a; entry_b; entry_c] 0 0 ∅ ∅ 3
                   peers23 0 []) 2 0 7).
  - reflexivity.
  - vm_compute. discriminate.
Defined.

(** When every entry of the request is in the log with its term, the walk
    finds no divergence and leaves [startIndex] at its initial value. *)
Lemma walk_all_present r entries i d :
  (∀ e, e ∈ entries →
        ∃ e', getLog r (Entry.Id e) = Some e' ∧ Entry.Term e' = Entry.Term e) →
  appendEntries_walk r entries i d = (d, r).
Proof.
  revert i. induction entries as [|e rest IH]; intros i Hall; [reflexivity|].
  cbn [appendEntries_walk].
  destruct (Hall e) as (e' & -> & Hterm); [left|].
  rewrite Hterm, Z.eqb_refl. cbn [negb].
  apply IH. intros e0 He0. apply Hall. right. exact He0.
Qed.

(** The initial value is the position of the last entry, so a request
    whose entries are all present makes the handler append its last entry
    once more. *)
Lemma store_all_present r req eLast :
  last (AppendEntriesRequest.Entries req) = Some eLast →
  (∀ e, e ∈ AppendEntriesRequest.Entries req →
        ∃ e', getLog r (Entry.Id e) = Some e' ∧ Entry.Term e' = Entry.Term e) →
  logs (appendEntries_store r req) = logs r ++ [eLast].
Proof.
  intros Hlast Hall. unfold appendEntries_store.
  apply last_Some in Hlast as [front Hfront].
  rewrite (walk_all_present _ _ _ _ Hall), Hfront.
  unfold len. rewrite length_app. cbn [length].
  destruct (Z.eqb_spec (Z.of_nat (length front + 1)) 0); [lia|].
  cbn [negb]. unfold appendLogs. cbn [logs set_logs].
  replace (length front + 1 - 1)%nat with (length front) by lia.
  rewrite drop_app_length. reflexivity.
Qed.

(** C1 on the code: a follower with an empty log handles the same
    AppendEntries twice.  The first call stores the two entries; in the
    second every entry is present with its term, and the handler appends
    the last one again, so the log after two calls differs from the log
    after one. *)
Theorem appendEntries_repeats_last_entry :
  let follower := mkRaft Follower 1 0 [] 0 0 ∅ ∅ 3 peers23 0 [] in
  let req := AppendEntriesRequest.mk 1 1 0 0 [entry_a; entry_b] 0 in
  let once := appendEntries follower req 7 in
  let twice := appendEntries once.1 req 8 in
  logs once.1 = [entry_a; entry_b]
  ∧ once.2 = AppendEntriesResponse.mk 1 true
  ∧ logs twice.1 = [entry_a; entry_b; entry_b]
  ∧ twice.2 = AppendEntriesResponse.mk 1 true.
Proof. vm_compute. repeat split. Qed.

(** ** The commit scan of the leader *)


Lemma replicasNeeded_majority r :
  Z.quot (len (map_to_list (peers r)) + 1) 2 + 1 = majority (clusterSize r).
Proof. apply votesNeeded_floor. Qed.

(** The scan either leaves the node as it is or commits one of the entries
    it was given, and that entry passes the three tests. *)
Lemma commitScan_result r needed l :
  commitScan r needed l = r
  ∨ ∃ e, e ∈ l ∧ commits r needed e
         ∧ commitScan r needed l = applyLogs (setCommitIndex r (Entry.Id e)).
Proof.
  induction l as [|e rest IH]; [left; reflexivity|].
  cbn [commitScan].
  destruct (Z.leb_spec (Entry.Id e) (commitIndex r)); [left; reflexivity|].
  destruct (Z.eqb_spec (Entry.Term e) (currentTerm r)) as [Hterm|Hterm];
    cbn [negb].
  - destruct (Z.leb_spec needed (countReplicas r (Entry.Id e))).
    + right. exists e. split; [left|]. split; [|reflexivity].
      unfold commits. auto.
    + destruct IH as [IH | (e' & Hin & Hc & IH)]; [left; exact IH|].
      right. exists e'. split; [right; exact Hin | auto].
  - destruct IH as [IH | (e' & Hin & Hc & IH)]; [left; exact IH|].
    right. exists e'. split; [right; exact Hin | auto].
Qed.

(** The scan touches the commit index, the applied index and the apply
    channel only. *)
Lemma commitScan_frame r needed l :
  let r' := commitScan r needed l in
  state r' = state r ∧ currentTerm r' = currentTerm r
  ∧ votedFor r' = votedFor r ∧ logs r' = logs r
  ∧ nextIndex r' = nextIndex r ∧ matchIndex r' = matchIndex r
  ∧ peers r' = peers r.
Proof.
  cbv zeta.
  destruct (commitScan_result r needed l) as [-> | (e & _ & _ & ->)];
    repeat split.
Qed.

Lemma commitScan_commitIndex_le r needed l :
  commitIndex r ≤ commitIndex (commitScan r needed l).
Proof.
  destruct (commitScan_result r needed l) as [-> | (e & _ & Hc & ->)];
    [lia|].
  destruct Hc as (Hlt & _). cbn. lia.
Qed.

Lemma suffixFrom_elem_of fromId l e : e ∈ suffixFrom fromId l → e ∈ l.
Proof.
  induction l as [|x l IH]; cbn [suffixFrom]; [auto|].
  destruct (Entry.Id x <? fromId); [|auto].
  intros He. right. apply IH. exact He.
Qed.

(** ** Responses to AppendEntries *)

Lemma handleAppendEntriesResult_unfold r result :
  handleAppendEntriesResult r result
  = let r2 := afterIndexUpdate r result in
    commitScan r2 (majority (clusterSize r2))
      (reverse (getLogs r2 (u64_add (commitIndex r2) 1))).
Proof.
  unfold handleAppendEntriesResult, afterIndexUpdate, adoptTerm. cbv zeta.
  rewrite <- !replicasNeeded_majority.
  destruct (negb (appendEntriesResult.Success result)); [reflexivity|].
  destruct (AppendEntriesRequest.Entries (appendEntriesResult.req result))
    as [|e l] eqn:Hent using rev_ind.
  - reflexivity.
  - unfold len. rewrite length_app. cbn [length].
    destruct (Z.eqb_spec (Z.of_nat (length l + 1)) 0); [lia|].
    reflexivity.
Qed.

Lemma afterIndexUpdate_frame r result :
  let r2 := afterIndexUpdate r result in
  let r1 := adoptTerm r (appendEntriesResult.Term result) in
  state r2 = state r1 ∧ currentTerm r2 = currentTerm r1
  ∧ votedFor r2 = votedFor r1 ∧ logs r2 = logs r
  ∧ commitIndex r2 = commitIndex r ∧ peers r2 = peers r.
Proof.
  cbv zeta. unfold afterIndexUpdate, adoptTerm.
  destruct (negb _); [case_cmp; repeat split|].
  destruct (last _); case_cmp; repeat split.
Qed.

Lemma mapGet_insert_eq (m : gmap Z Z) k v : mapGet (<[k := v]> m) k = v.
Proof. unfold mapGet. rewrite lookup_insert_eq. reflexivity. Qed.

Lemma mapGet_insert_ne (m : gmap Z Z) k k' v :
  k ≠ k' → mapGet (<[k := v]> m) k' = mapGet m k'.
Proof. intros Hne. unfold mapGet. rewrite lookup_insert_ne by exact Hne. reflexivity. Qed.

(** C3, as the code has it: on a response whose term is above
    [currentTerm] the node steps down to Follower at that term, and the
    call goes on as for any response.  The indexes of the other peers are
    left alone; those of the responding peer are updated by the outcome
    (on failure [nextIndex] goes down by 1 and [matchIndex] keeps its
    value, on success with entries both follow the last entry sent, on
    success without entries nothing changes); the commit scan runs at
    the new term, so [commitIndex] stays where it was unless the log
    holds an entry of that term. *)
Theorem handleAppendEntriesResult_higher_term
    (r : Raft) (result : appendEntriesResult.t) :
  currentTerm r < appendEntriesResult.Term result →
  let r' := handleAppendEntriesResult r result in
  let peer := appendEntriesResult.peerId result in
  let entries := AppendEntriesRequest.Entries (appendEntriesResult.req result) in
  state r' = Follower
  ∧ currentTerm r' = appendEntriesResult.Term result
  ∧ votedFor r' = 0
  ∧ logs r' = logs r
  ∧ (∀ p, p ≠ peer →
       mapGet (nextIndex r') p = mapGet (nextIndex r) p
       ∧ mapGet (matchIndex r') p = mapGet (matchIndex r) p)
  ∧ (appendEntriesResult.Success result = false →
       mapGet (nextIndex r') peer = u64_sub (mapGet (nextIndex r) peer) 1
       ∧ mapGet (matchIndex r') peer = mapGet (matchIndex r) peer)
  ∧ (appendEntriesResult.Success result = true →
       ∀ lastSent, last entries = Some lastSent →
         mapGet (nextIndex r') peer = u64_add (Entry.Id lastSent) 1
         ∧ mapGet (matchIndex r') peer = Entry.Id lastSent)
  ∧ (appendEntriesResult.Success result = true → entries = [] →
       nextIndex r' = nextIndex r ∧ matchIndex r' = matchIndex r)
  ∧ ((∀ e, e ∈ logs r → Entry.Term e ≠ appendEntriesResult.Term result) →
       commitIndex r' = commitIndex r).
Proof.
  intros Hterm. cbv zeta. rewrite handleAppendEntriesResult_unfold. cbv zeta.
  set (r2 := afterIndexUpdate r result).
  set (l := reverse (getLogs r2 (u64_add (commitIndex r2) 1))).
  destruct (commitScan_frame r2 (majority (clusterSize r2)) l)
    as (Hst & Hct & Hvf & Hlg & Hni & Hmi & _).
  destruct (afterIndexUpdate_frame r result)
    as (Hst2 & Hct2 & Hvf2 & Hlg2 & Hci2 & _).
  fold r2 in Hst2, Hct2, Hvf2, Hlg2, Hci2.
  assert (adoptTerm r (appendEntriesResult.Term result)
          = toFollower r (appendEntriesResult.Term result)) as Hadopt.
  { unfold adoptTerm. case_cmp; [reflexivity | lia]. }
  rewrite Hadopt in Hst2, Hct2, Hvf2.
  rewrite Hst, Hct, Hvf, Hlg, Hni, Hmi, Hst2, Hct2, Hvf2, Hlg2.
  split; [reflexivity|]. split; [reflexivity|]. split; [reflexivity|].
  split; [reflexivity|].
  assert (nextIndex (toFollower r (appendEntriesResult.Term result))
          = nextIndex r) as Hn0 by reflexivity.
  assert (matchIndex (toFollower r (appendEntriesResult.Term result))
          = matchIndex r) as Hm0 by reflexivity.
  split.
  { intros p Hp. unfold r2, afterIndexUpdate. rewrite Hadopt.
    destruct (negb _); [|destruct (last _)];
      cbn [nextIndex matchIndex setNextAndMatchIndex set_matchIndex
           set_nextIndex];
      rewrite ?mapGet_insert_ne by auto; split; reflexivity. }
  split.
  { intros Hfail. unfold r2, afterIndexUpdate. rewrite Hadopt, Hfail.
    cbn [negb nextIndex matchIndex setNextAndMatchIndex set_matchIndex
         set_nextIndex].
    rewrite !mapGet_insert_eq, Hn0, Hm0. split; reflexivity. }
  split.
  { intros Hok lastSent Hlast. unfold r2, afterIndexUpdate.
    rewrite Hadopt, Hok, Hlast.
    cbn [negb nextIndex matchIndex setNextAndMatchIndex set_matchIndex
         set_nextIndex].
    rewrite !mapGet_insert_eq. split; reflexivity. }
  split.
  { intros Hok Hnil. unfold r2, afterIndexUpdate.
    rewrite Hadopt, Hok, Hnil. split; reflexivity. }
  intros Hnone. rewrite <- Hci2.
  destruct (commitScan_result r2 (majority (clusterSize r2)) l)
    as [-> | (e & Hin & Hc & _)]; [reflexivity|].
  exfalso. destruct Hc as (_ & Hte & _).
  apply (Hnone e).
  - unfold l, getLogs in Hin. rewrite elem_of_reverse in Hin.
    apply suffixFrom_elem_of in Hin. rewrite <- Hlg2. exact Hin.
  - rewrite Hte, Hct2. reflexivity.
Qed.

Lemma handleAppendEntriesResult_higher_term_witness :
  state (handleAppendEntriesResult leader_term1 failure_term2) = Follower
  ∧ currentTerm (handleAppendEntriesResult leader_term1 failure_term2) = 2.
Proof.
  pose proof (handleAppendEntriesResult_higher_term leader_term1 failure_term2)
    as H.
  cbv zeta in H.
  destruct H as (Hst & Hct & _); [reflexivity|].
  split; [exact Hst | exact Hct].
Defined.

(** C3, as the claim states it, fails: the leader above handles a failed
    response of term 2 while at term 1; it steps down, and [nextIndex] of
    the responding peer goes from 2 to 1 all the same. *)
Lemma handleAppendEntriesResult_continues_after_step_down :
  currentTerm leader_term1 = 1
  ∧ appendEntriesResult.Term failure_term2 = 2
  ∧ state (handleAppendEntriesResult leader_term1 failure_term2) = Follower
  ∧ mapGet (nextIndex leader_term1) 2 = 2
  ∧ mapGet (nextIndex (handleAppendEntriesResult leader_term1 failure_term2)) 2
    = 1.
Proof. vm_compute. repeat split. Qed.

(** ** The commit index across the handlers *)

Lemma walk_commitIndex r entries i d :
  commitIndex (appendEntries_walk r entries i d).2 = commitIndex r.
Proof.
  revert i. induction entries as [|e rest IH]; intros i; cbn; [reflexivity|].
  destruct (getLog r (Entry.Id e)) as [rEntry|]; [|reflexivity].
  destruct (negb _); [reflexivity | apply IH].
Qed.

Lemma store_commitIndex r req :
  commitIndex (appendEntries_store r req) = commitIndex r.
Proof.
  unfold appendEntries_store. destruct (negb _); [|reflexivity].
  pose proof (walk_commitIndex r (AppendEntriesRequest.Entries req) 0
                (length (AppendEntriesRequest.Entries req) - 1)%nat) as Hw.
  destruct (appendEntries_walk _ _ _ _) as [startIndex r']. exact Hw.
Qed.

Lemma getLastLog_logs r r' : logs r = logs r' → getLastLog r = getLastLog r'.
Proof. unfold getLastLog. intros ->. reflexivity. Qed.

Lemma commit_commitIndex r req :
  Z.min (commitIndex r) (getLastLog r).1
  ≤ commitIndex (appendEntries_commit r req).
Proof.
  unfold appendEntries_commit. case_cmp; [|lia].
  destruct (getLastLog r) as [lastId lastTerm]. cbn [fst].
  case_cmp; cbn; lia.
Qed.

Lemma commitIndex_appendEntries_min r req now :
  Z.min (commitIndex r) (getLastLog (appendEntries r req now).1).1
  ≤ commitIndex (appendEntries r req now).1.
Proof.
  unfold appendEntries. case_cmp; cbn [fst]; [lia|].
  destruct (appendEntries_prevMismatch _ _); cbn [fst].
  - rewrite stepDown_commitIndex. lia.
  - set (r3 := appendEntries_store (appendEntries_stepDown r req now) req).
    rewrite (getLastLog_logs (appendEntries_commit r3 req) r3)
      by apply commit_logs.
    pose proof (commit_commitIndex r3 req) as Hc.
    assert (commitIndex r3 = commitIndex r) as Heq
      by (unfold r3; rewrite store_commitIndex; apply stepDown_commitIndex).
    lia.
Qed.

Lemma commitIndex_requestVote r req now :
  commitIndex (requestVote r req now).1 = commitIndex r.
Proof.
  unfold requestVote. case_cmp; [reflexivity|].
  case_cmp; cbn [toFollower set_votedFor votedFor];
    repeat case_cmp; cbn [negb andb orb];
    try reflexivity;
    match goal with
    | |- context [getLastLog ?x] => destruct (getLastLog x)
    end;
    repeat case_cmp; reflexivity.
Qed.

Lemma commitIndex_handleAppendEntriesResult_le r result :
  commitIndex r ≤ commitIndex (handleAppendEntriesResult r result).
Proof.
  rewrite handleAppendEntriesResult_unfold. cbv zeta.
  destruct (afterIndexUpdate_frame r result) as (_ & _ & _ & _ & Hci & _).
  rewrite <- Hci at 1. apply commitScan_commitIndex_le.
Qed.

(** C8, as the code has it: for every state, reachable or not, and every
    message, [requestVote], [applyCommand] and [handleVoteResult] leave
    [commitIndex] as it is and [handleAppendEntriesResult] never lowers
    it; [appendEntries] yields a [commitIndex] of at least the lesser of
    the old [commitIndex] and the last log id after the call, so it does
    not lower [commitIndex] as long as the log still reaches it. *)
Theorem commitIndex_monotone (r : Raft) :
  (∀ req now, commitIndex (requestVote r req now).1 = commitIndex r)
  ∧ (∀ req, commitIndex (applyCommand r req).1 = commitIndex r)
  ∧ (∀ vote granted needed,
       commitIndex (handleVoteResult r vote granted needed).1 = commitIndex r)
  ∧ (∀ result, commitIndex r ≤ commitIndex (handleAppendEntriesResult r result))
  ∧ (∀ req now,
       let r' := (appendEntries r req now).1 in
       Z.min (commitIndex r) (getLastLog r').1 ≤ commitIndex r'
       ∧ (commitIndex r ≤ (getLastLog r').1 → commitIndex r ≤ commitIndex r')).
Proof.
  split; [apply commitIndex_requestVote|].
  split.
  { intros req. unfold applyCommand.
    destruct (bool_decide _); [reflexivity|].
    destruct (getLastLog r). reflexivity. }
  split.
  { intros vote granted needed. unfold handleVoteResult. cbn [fst].
    destruct (_ <=? _); destruct (_ <? _); reflexivity. }
  split; [apply commitIndex_handleAppendEntriesResult_le|].
  intros req now. cbv zeta.
  pose proof (commitIndex_appendEntries_min r req now) as Hmin.
  split; [exact Hmin | lia].
Qed.

(** C8, as the claim states it, fails for [appendEntries]: the node above
    is reachable and has [commitIndex = 3]; an AppendEntries of term 2
    that replaces entry 2 cuts the log down to two entries, and the
    handler sets [commitIndex] to the last log id, 2. *)
Lemma appendEntries_lowers_commitIndex :
  reachable 3 peers23 follower_three_committed
  ∧ commitIndex follower_three_committed = 3
  ∧ logs (appendEntries follower_three_committed
            (AppendEntriesRequest.mk 2 2 1 1 [entry_b'] 4) 6).1
    = [entry_a; entry_b']
  ∧ commitIndex (appendEntries follower_three_committed
                   (AppendEntriesRequest.mk 2 2 1 1 [entry_b'] 4) 6).1 = 2.
Proof.
  split; [apply reach_appendEntries, reach_new|].
  vm_compute. repeat split.
Qed.

(** ** Commit advancement *)

Lemma ids_from_sorted (k : Z) (l : list Entry.t) :
  (∀ (i : nat) e, l !! i = Some e → Entry.Id e = Z.of_nat i + k) →
  StronglySorted id_lt l.
Proof.
  revert k. induction l as [|a l IH]; intros k Hids; [constructor|].
  apply StronglySorted_cons. split.
  - apply Forall_forall. intros x Hx.
    apply list_elem_of_lookup in Hx as [i Hi].
    pose proof (Hids 0%nat a eq_refl) as Ha.
    pose proof (Hids (S i) x Hi) as Hxid.
    unfold id_lt. lia.
  - apply (IH (k + 1)). intros i e Hi.
    rewrite (Hids (S i) e Hi). lia.
Qed.

Lemma log_wf_sorted l : log_wf l → StronglySorted id_lt l.
Proof. apply ids_from_sorted. Qed.

Lemma suffixFrom_sorted fromId l :
  StronglySorted id_lt l → StronglySorted id_lt (suffixFrom fromId l).
Proof.
  induction 1 as [|a l Hs IH Ha]; cbn [suffixFrom]; [constructor|].
  destruct (Entry.Id a <? fromId); [exact IH | constructor; assumption].
Qed.

Lemma suffixFrom_sorted_elem_of fromId l e :
  StronglySorted id_lt l →
  e ∈ suffixFrom fromId l ↔ e ∈ l ∧ fromId ≤ Entry.Id e.
Proof.
  induction 1 as [|a l Hs IH Ha]; cbn [suffixFrom].
  - split; [intros H | intros [H _]]; inversion H.
  - rewrite Forall_forall in Ha.
    destruct (Z.ltb_spec (Entry.Id a) fromId) as [Hlt|Hge].
    + rewrite IH, elem_of_cons. split; [tauto|].
      intros [[-> | He] Hle]; [lia | tauto].
    + rewrite elem_of_cons. split; [|tauto].
      intros [-> | He]; [tauto|].
      split; [tauto|]. specialize (Ha e He). unfold id_lt in Ha. lia.
Qed.

(** On entries in the order of their ids, scanned from the last one down,
    the scan commits the entry of greatest id that passes the tests, and
    leaves the node alone when none passes. *)
Lemma commitScan_reverse_sorted r needed l :
  StronglySorted id_lt l →
  (commitScan r needed (reverse l) = r
   ∧ ∀ e, e ∈ l → ¬ commits r needed e)
  ∨ ∃ e, e ∈ l ∧ commits r needed e
         ∧ commitScan r needed (reverse l)
           = applyLogs (setCommitIndex r (Entry.Id e))
         ∧ ∀ e', e' ∈ l → commits r needed e' → Entry.Id e' ≤ Entry.Id e.
Proof.
  induction l as [|e front IH] using rev_ind; intros Hsorted.
  { left. split; [reflexivity|]. intros e He. inversion He. }
  apply StronglySorted_app in Hsorted as (Hlt & Hfront & _).
  assert (∀ x, x ∈ front ++ [e] → Entry.Id x ≤ Entry.Id e) as Hmax.
  { intros x Hx. apply elem_of_app in Hx as [Hx | Hx].
    - specialize (Hlt x e Hx). unfold id_lt in Hlt.
      assert (e ∈ [e]) as He by (left). specialize (Hlt He). lia.
    - apply list_elem_of_singleton in Hx as ->. lia. }
  assert (¬ commits r needed e →
          (commitScan r needed (reverse front) = r
           ∧ ∀ x, x ∈ front → ¬ commits r needed x)
          ∨ (∃ x, x ∈ front ∧ commits r needed x
                  ∧ commitScan r needed (reverse front)
                    = applyLogs (setCommitIndex r (Entry.Id x))
                  ∧ ∀ e', e' ∈ front → commits r needed e' →
                          Entry.Id e' ≤ Entry.Id x) →
          (commitScan r needed (reverse front) = r
           ∧ ∀ x, x ∈ front ++ [e] → ¬ commits r needed x)
          ∨ (∃ x, x ∈ front ++ [e] ∧ commits r needed x
                  ∧ commitScan r needed (reverse front)
                    = applyLogs (setCommitIndex r (Entry.Id x))
                  ∧ ∀ e', e' ∈ front ++ [e] → commits r needed e' →
                          Entry.Id e' ≤ Entry.Id x)) as Hext.
  { intros Hne [[Hscan Hnone] | (x & Hx & Hc & Hscan & Hbest)].
    - left. split; [exact Hscan|]. intros y Hy.
      apply elem_of_app in Hy as [Hy | Hy]; [apply Hnone; exact Hy|].
      apply list_elem_of_singleton in Hy as ->. exact Hne.
    - right. exists x. split; [apply elem_of_app; left; exact Hx|].
      split; [exact Hc|]. split; [exact Hscan|].
      intros y Hy Hcy. apply elem_of_app in Hy as [Hy | Hy];
        [apply Hbest; assumption|].
      apply list_elem_of_singleton in Hy as ->. contradiction. }
  rewrite reverse_snoc. cbn [commitScan].
  destruct (Z.leb_spec (Entry.Id e) (commitIndex r)) as [Hle|Hgt].
  { left. split; [reflexivity|]. intros x Hx (Hc & _).
    specialize (Hmax x Hx). lia. }
  destruct (Z.eqb_spec (Entry.Term e) (currentTerm r)) as [Hterm|Hterm];
    cbn [negb].
  - destruct (Z.leb_spec needed (countReplicas r (Entry.Id e))) as [Hrep|Hrep].
    + right. exists e. split; [apply elem_of_app; right; left|].
      split; [unfold commits; auto|]. split; [reflexivity|].
      intros y Hy _. apply Hmax. exact Hy.
    + apply Hext; [|apply IH; exact Hfront].
      intros (_ & _ & Hc). lia.
  - apply Hext; [|apply IH; exact Hfront].
    intros (_ & Hc & _). contradiction.
Qed.





(** Once entry 6 of term 3 is in the log and on peer 2, the response
    moves [commitIndex] to 6, which commits entries 4 and 5 with it. *)
Example commit_current_term_entry :
  let r := appendLogs leader_term3 [Entry.mk 6 3 "f"] in
  let sent := AppendEntriesRequest.mk 3 1 5 2 [Entry.mk 6 3 "f"] 3 in
  let result :=
    appendEntriesResult.mk (AppendEntriesResponse.mk 3 true) sent 2 in
  commitIndex (handleAppendEntriesResult r result) = 6
  ∧ Entry.Id <$> applyCh (handleAppendEntriesResult r result)
    = [1; 2; 3; 4; 5; 6].
Proof. vm_compute. split; reflexivity. Qed.

(** ** Scenarios of the specification, run on the model *)

(** Election from a cold start: the timer of node 1 fires, it votes for
    itself at term 1, node 2 grants its vote, and the first response makes
    node 1 Leader of term 1. *)
Example election_from_cold_start :
  let candidate := voteForSelf (handleFollowerHeartbeatTimeout
                                  (NewRaft 1 peers23 0)) 0 in
  let ask := RequestVoteRequest.mk (currentTerm candidate.1) 1 0 0 in
  let voter := requestVote (NewRaft 2 (<[1 := PeerClient]> (<[3 := PeerClient]> ∅)) 0)
                 ask 1 in
  let elected := handleVoteResult candidate.1 (voteResult.mk voter.2 2)
                   candidate.2 (votesNeeded candidate.1) in
  voter.2 = RequestVoteResponse.mk 1 true
  ∧ (state voter.1, currentTerm voter.1, votedFor voter.1) = (Follower, 1, 1)
  ∧ (state elected.1, currentTerm elected.1, elected.2) = (Leader, 1, 2).
Proof. vm_compute. repeat split. Qed.

(** Single-entry replication, at the leader: the first command of the
    leader of term 1 becomes entry 1 of term 1. *)
Example first_command :
  (applyCommand (mkRaft Leader 1 1 [] 0 0 ∅ ∅ 1 peers23 0 [])
     (ApplyCommandRequest.mk "x")).2
  = inl (ApplyCommandResponse.mk (Entry.mk 1 1 "x")).
Proof. reflexivity. Qed.

(** A client that addresses a follower is told so. *)
Example command_to_follower :
  applyCommand (NewRaft 2 peers23 0) (ApplyCommandRequest.mk "x")
  = (NewRaft 2 peers23 0, inr errNotLeader).
Proof. reflexivity. Qed.

(** Stale vote rejection: a node at term 5 whose last entry is (10, 5)
    denies its vote to a candidate whose last entry is (10, 4). *)
Example stale_vote_rejection :
  let log := (λ i, Entry.mk i 5 "") <$> [1; 2; 3; 4; 5; 6; 7; 8; 9; 10] in
  let node := mkRaft Follower 5 0 log 0 0 ∅ ∅ 1 peers23 0 [] in
  requestVote node (RequestVoteRequest.mk 5 7 10 4) 1
  = (node, RequestVoteResponse.mk 5 false).
Proof. reflexivity. Qed.

(** * Further properties of the handlers *)

(** ** The shape of what [appendEntries] returns *)

Lemma Raft_eta (r : Raft) :
  mkRaft (state r) (currentTerm r) (votedFor r) (logs r) (commitIndex r)
    (lastApplied r) (nextIndex r) (matchIndex r) (id r) (peers r)
    (lastHeartbeat r) (applyCh r) = r.
Proof. destruct r. reflexivity. Qed.

(** The three ways through [appendEntries]: a stale term, a previous
    entry that does not match, and acceptance. *)
Lemma appendEntries_cases r req now :
  let r1 := appendEntries_stepDown r req now in
  (AppendEntriesRequest.Term req < currentTerm r
   ∧ appendEntries r req now = (r, AppendEntriesResponse.mk (currentTerm r) false))
  ∨ (currentTerm r ≤ AppendEntriesRequest.Term req
     ∧ appendEntries_prevMismatch r1 req = true
     ∧ appendEntries r req now
       = (r1, AppendEntriesResponse.mk (AppendEntriesRequest.Term req) false))
  ∨ (currentTerm r ≤ AppendEntriesRequest.Term req
     ∧ appendEntries_prevMismatch r1 req = false
     ∧ appendEntries r req now
       = (appendEntries_commit (appendEntries_store r1 req) req,
          AppendEntriesResponse.mk (AppendEntriesRequest.Term req) true)).
Proof.
  cbv zeta. unfold appendEntries. case_cmp; [left; auto|].
  right. destruct (appendEntries_prevMismatch _ _) eqn:Hprev.
  - left. rewrite stepDown_currentTerm by assumption. auto.
  - right. rewrite commit_currentTerm, store_currentTerm,
      stepDown_currentTerm by assumption. auto.
Qed.

Lemma walk_shape r entries i d :
  (appendEntries_walk r entries i d).2 = r
  ∨ ∃ x, (appendEntries_walk r entries i d).2 = deleteLogs r x.
Proof.
  revert i. induction entries as [|e rest IH]; intros i; cbn;
    [left; reflexivity|].
  destruct (getLog r (Entry.Id e)) as [rEntry|]; [|left; reflexivity].
  destruct (negb _); [right; eexists; reflexivity | apply IH].
Qed.

(** Reconciliation changes the log and nothing else. *)
Lemma store_frame r req :
  appendEntries_store r req = set_logs r (logs (appendEntries_store r req)).
Proof.
  unfold appendEntries_store. destruct (negb _).
  - pose proof (walk_shape r (AppendEntriesRequest.Entries req) 0
                  (length (AppendEntriesRequest.Entries req) - 1)%nat) as Hw.
    destruct (appendEntries_walk _ _ _ _) as [startIndex r'].
    cbn [snd] in Hw. destruct Hw as [-> | [x ->]]; reflexivity.
  - unfold set_logs. symmetry. apply Raft_eta.
Qed.

(** The commit step changes the commit index, the applied index and the
    apply channel only. *)
Lemma commit_shape r req :
  appendEntries_commit r req = r
  ∨ ∃ n, appendEntries_commit r req = applyLogs (setCommitIndex r n).
Proof.
  unfold appendEntries_commit. case_cmp; [|left; reflexivity].
  destruct (getLastLog r) as [lastId lastTerm].
  right. case_cmp; eexists; reflexivity.
Qed.

Lemma accepted_frame r req :
  let r' := appendEntries_commit (appendEntries_store r req) req in
  state r' = state r ∧ currentTerm r' = currentTerm r
  ∧ votedFor r' = votedFor r ∧ nextIndex r' = nextIndex r
  ∧ matchIndex r' = matchIndex r ∧ lastHeartbeat r' = lastHeartbeat r
  ∧ peers r' = peers r ∧ id r' = id r.
Proof.
  cbv zeta.
  destruct (commit_shape (appendEntries_store r req) req) as [-> | [n ->]];
    rewrite (store_frame r req); repeat split.
Qed.

Lemma stepDown_frame r req now :
  let r1 := appendEntries_stepDown r req now in
  lastHeartbeat r1 = now ∧ logs r1 = logs r ∧ commitIndex r1 = commitIndex r
  ∧ lastApplied r1 = lastApplied r ∧ applyCh r1 = applyCh r
  ∧ nextIndex r1 = nextIndex r ∧ matchIndex r1 = matchIndex r
  ∧ peers r1 = peers r ∧ id r1 = id r.
Proof.
  cbv zeta. unfold appendEntries_stepDown.
  repeat match goal with
         | |- context [if ?b then _ else _] => destruct b
         end; repeat split.
Qed.

Lemma stepDown_role r req now :
  currentTerm r ≤ AppendEntriesRequest.Term req →
  let r1 := appendEntries_stepDown r req now in
  ((currentTerm r < AppendEntriesRequest.Term req ∨ state r = Candidate) →
   state r1 = Follower ∧ votedFor r1 = 0)
  ∧ (AppendEntriesRequest.Term req = currentTerm r → state r ≠ Candidate →
     state r1 = state r ∧ votedFor r1 = votedFor r).
Proof.
  intros Hle. cbv zeta. unfold appendEntries_stepDown.
  destruct r as [st ct vf lg ci la ni mi i0 ps hb ch]. cbn in *.
  destruct (Z.ltb_spec ct (AppendEntriesRequest.Term req)) as [Hlt|Hge]; cbn.
  - rewrite Z.leb_refl. cbn. split.
    + intros _. destruct (bool_decide _); split; reflexivity.
    + intros Heq. lia.
  - destruct (Z.leb_spec ct (AppendEntriesRequest.Term req)); [|lia]. cbn.
    destruct (bool_decide (st = Candidate)) eqn:Hc; cbn.
    + apply bool_decide_eq_true in Hc. split.
      * intros _. split; reflexivity.
      * intros _ Hn. contradiction.
    + apply bool_decide_eq_false in Hc. split.
      * intros [Hlt | Hcand]; [lia | contradiction].
      * intros _ _. split; reflexivity.
Qed.

Lemma adoptTerm_currentTerm r t :
  currentTerm (adoptTerm r t) = Z.max (currentTerm r) t.
Proof. unfold adoptTerm. case_cmp; cbn; lia. Qed.

Lemma adoptTerm_le r t : t ≤ currentTerm r → adoptTerm r t = r.
Proof. intros Hle. unfold adoptTerm. case_cmp; [lia | reflexivity]. Qed.

(** The three ways through [requestVote]: a stale term, a denial after
    term adoption, and a grant. *)
Lemma requestVote_cases r req now :
  let r1 := adoptTerm r (RequestVoteRequest.Term req) in
  let cand := RequestVoteRequest.CandidateId req in
  (RequestVoteRequest.Term req < currentTerm r
   ∧ requestVote r req now = (r, RequestVoteResponse.mk (currentTerm r) false))
  ∨ (currentTerm r ≤ RequestVoteRequest.Term req
     ∧ ((votedFor r1 ≠ 0 ∧ votedFor r1 ≠ cand) ∨ ¬ upToDate req r)
     ∧ requestVote r req now
       = (r1, RequestVoteResponse.mk (currentTerm r1) false))
  ∨ (currentTerm r ≤ RequestVoteRequest.Term req
     ∧ (votedFor r1 = 0 ∨ votedFor r1 = cand)
     ∧ upToDate req r
     ∧ requestVote r req now
       = (set_lastHeartbeat (set_votedFor r1 cand) now,
          RequestVoteResponse.mk (currentTerm r1) true)).
Proof.
  cbv zeta. unfold upToDate, requestVote, adoptTerm.
  destruct (getLastLog r) as [localLastId localLastTerm] eqn:Hlast.
  assert (∀ t, getLastLog (toFollower r t) = (localLastId, localLastTerm)) as Hf
    by (intros t; exact Hlast).
  case_cmp; [left; split; [assumption | reflexivity]|].
  right.
  repeat case_cmp; cbn [negb andb orb fst snd];
    rewrite ?Hlast, ?Hf; cbn [negb andb orb fst snd];
    repeat case_cmp; cbn [negb andb orb fst snd];
    cbn [toFollower voteFor set_votedFor set_currentTerm set_state
         set_lastHeartbeat votedFor currentTerm] in *;
    first
      [ right; repeat split; try reflexivity; try lia; tauto
      | left; repeat split; try reflexivity; try lia; tauto
      | left; split; [lia|]; split; [|reflexivity]; right; lia
      | left; split; [lia|]; split; [|reflexivity]; left; lia ].
Qed.

(** ** Terms *)

(** X1: every handler leaves [currentTerm] at the greater of its old
    value and the term of the message handled, so it never goes down; the
    responses of [appendEntries] and [requestVote] carry the term the
    node has after the call; [applyCommand] leaves the term alone. *)
Theorem currentTerm_after_handlers (r : Raft) :
  (∀ req now,
     let out := appendEntries r req now in
     currentTerm out.1 = Z.max (currentTerm r) (AppendEntriesRequest.Term req)
     ∧ AppendEntriesResponse.Term out.2 = currentTerm out.1)
  ∧ (∀ req now,
       let out := requestVote r req now in
       currentTerm out.1 = Z.max (currentTerm r) (RequestVoteRequest.Term req)
       ∧ RequestVoteResponse.Term out.2 = currentTerm out.1)
  ∧ (∀ vote granted needed,
       currentTerm (handleVoteResult r vote granted needed).1
       = Z.max (currentTerm r) (voteResult.Term vote))
  ∧ (∀ result,
       currentTerm (handleAppendEntriesResult r result)
       = Z.max (currentTerm r) (appendEntriesResult.Term result))
  ∧ (∀ req, currentTerm (applyCommand r req).1 = currentTerm r).
Proof.
  split.
  { intros req now. cbv zeta.
    destruct (appendEntries_cases r req now)
      as [(Hlt & ->) | [(Hle & _ & ->) | (Hle & _ & ->)]]; cbn [fst snd].
    - cbn. lia.
    - rewrite stepDown_currentTerm by assumption. cbn. lia.
    - rewrite commit_currentTerm, store_currentTerm,
        stepDown_currentTerm by assumption. cbn. lia. }
  split.
  { intros req now. cbv zeta.
    destruct (requestVote_cases r req now)
      as [(Hlt & ->) | [(Hle & _ & ->) | (Hle & _ & _ & ->)]]; cbn [fst snd].
    - cbn. lia.
    - rewrite adoptTerm_currentTerm. cbn. lia.
    - cbn. rewrite adoptTerm_currentTerm. lia. }
  split.
  { intros vote granted needed. unfold handleVoteResult. cbn [fst].
    destruct (_ <=? _); cbn; case_cmp; cbn; lia. }
  split.
  { intros result. rewrite handleAppendEntriesResult_unfold. cbv zeta.
    destruct (commitScan_frame (afterIndexUpdate r result)
                (majority (clusterSize (afterIndexUpdate r result)))
                (reverse (getLogs (afterIndexUpdate r result)
                            (u64_add (commitIndex (afterIndexUpdate r result)) 1))))
      as (_ & -> & _).
    destruct (afterIndexUpdate_frame r result) as (_ & -> & _).
    apply adoptTerm_currentTerm. }
  intros req. unfold applyCommand.
  destruct (bool_decide _); [reflexivity|].
  destruct (getLastLog r). reflexivity.
Qed.

(** ** Roles and rejections of [appendEntries] *)

(** X2: an AppendEntries whose term is not below [currentTerm] brings
    the node to the request's term and records the heartbeat, whether or
    not the previous-entry check then succeeds.  A higher term, or the
    Candidate role, makes the node a Follower with no vote cast (a
    candidate thus forgets the vote it gave itself in that very term); a
    Follower or a Leader of the request's own term keeps its role and its
    vote. *)
Theorem appendEntries_role
    (r : Raft) (req : AppendEntriesRequest.t) (now : Z) :
  currentTerm r ≤ AppendEntriesRequest.Term req →
  let r' := (appendEntries r req now).1 in
  currentTerm r' = AppendEntriesRequest.Term req
  ∧ lastHeartbeat r' = now
  ∧ ((currentTerm r < AppendEntriesRequest.Term req ∨ state r = Candidate) →
     state r' = Follower ∧ votedFor r' = 0)
  ∧ (AppendEntriesRequest.Term req = currentTerm r → state r ≠ Candidate →
     state r' = state r ∧ votedFor r' = votedFor r).
Proof.
  intros Hle. cbv zeta.
  pose proof (stepDown_role r req now Hle) as Hrole. cbv zeta in Hrole.
  destruct (stepDown_frame r req now) as (Hhb & _).
  pose proof (stepDown_currentTerm r req now Hle) as Hct.
  destruct (appendEntries_cases r req now)
    as [(Hlt & _) | [(_ & _ & ->) | (_ & _ & ->)]]; [lia| |]; cbn [fst].
  - split; [exact Hct|]. split; [exact Hhb | exact Hrole].
  - destruct (accepted_frame (appendEntries_stepDown r req now) req)
      as (-> & -> & -> & _ & _ & -> & _).
    split; [exact Hct|]. split; [exact Hhb | exact Hrole].
Qed.

(** A candidate of term 1 that voted for itself hears from the leader of
    term 1. *)
Lemma appendEntries_role_witness :
  state (appendEntries (mkRaft Candidate 1 1 [] 0 0 ∅ ∅ 1 peers23 0 [])
           (AppendEntriesRequest.mk 1 2 0 0 [] 0) 7).1 = Follower
  ∧ votedFor (appendEntries (mkRaft Candidate 1 1 [] 0 0 ∅ ∅ 1 peers23 0 [])
                (AppendEntriesRequest.mk 1 2 0 0 [] 0) 7).1 = 0.
Proof.
  apply (appendEntries_role (mkRaft Candidate 1 1 [] 0 0 ∅ ∅ 1 peers23 0 [])
           (AppendEntriesRequest.mk 1 2 0 0 [] 0) 7).
  - vm_compute. discriminate.
  - right. reflexivity.
Defined.

(** X3: an AppendEntries that is answered with [success = false] leaves
    the log, the commit index, the applied index, the apply channel and
    the leader's indexes as they were; when the cause is a stale term the
    node is not touched at all and the answer carries its term. *)
Theorem appendEntries_rejected
    (r : Raft) (req : AppendEntriesRequest.t) (now : Z) :
  AppendEntriesResponse.Success (appendEntries r req now).2 = false →
  let r' := (appendEntries r req now).1 in
  logs r' = logs r ∧ commitIndex r' = commitIndex r
  ∧ lastApplied r' = lastApplied r ∧ applyCh r' = applyCh r
  ∧ nextIndex r' = nextIndex r ∧ matchIndex r' = matchIndex r
  ∧ (AppendEntriesRequest.Term req < currentTerm r →
     appendEntries r req now
     = (r, AppendEntriesResponse.mk (currentTerm r) false)).
Proof.
  cbv zeta.
  destruct (appendEntries_cases r req now)
    as [(Hlt & ->) | [(Hle & _ & ->) | (Hle & _ & ->)]]; cbn [fst snd];
    intros Hfail.
  - repeat split.
  - destruct (stepDown_frame r req now)
      as (_ & -> & -> & -> & -> & -> & -> & _).
    repeat split. intros Hlt. lia.
  - discriminate Hfail.
Qed.

(** A leader of term 3 turns down an AppendEntries of term 2. *)
Lemma appendEntries_rejected_witness :
  appendEntries leader_term3
    (AppendEntriesRequest.mk 2 2 0 0 [entry_a] 9) 7
  = (leader_term3, AppendEntriesResponse.mk 3 false).
Proof.
  apply (appendEntries_rejected leader_term3
           (AppendEntriesRequest.mk 2 2 0 0 [entry_a] 9) 7).
  - reflexivity.
  - reflexivity.
Defined.

(** ** Votes *)

(** X4: two requests for a vote handled one after the other.  When
    [requestVote] has granted the request of candidate [c1], with [c1] not
    0, and the call that follows on the node is a [requestVote] of the
    same term or a lower one from another candidate, that request is
    denied and the node stays as the first call left it, its vote for
    [c1] included.  (Nothing is said of what other handlers do to the
    vote in between.) *)
Theorem requestVote_second_candidate_denied
    (r : Raft) (req1 req2 : RequestVoteRequest.t) (now1 now2 : Z) :
  RequestVoteResponse.VoteGranted (requestVote r req1 now1).2 = true →
  RequestVoteRequest.CandidateId req1 ≠ 0 →
  RequestVoteRequest.Term req2 ≤ RequestVoteRequest.Term req1 →
  RequestVoteRequest.CandidateId req2 ≠ RequestVoteRequest.CandidateId req1 →
  let r1 := (requestVote r req1 now1).1 in
  votedFor r1 = RequestVoteRequest.CandidateId req1
  ∧ requestVote r1 req2 now2
    = (r1, RequestVoteResponse.mk (currentTerm r1) false).
Proof.
  intros Hgrant Hc1 Hterm Hother. cbv zeta. revert Hgrant.
  destruct (requestVote_cases r req1 now1)
    as [(_ & ->) | [(_ & _ & ->) | (Hle1 & _ & _ & ->)]]; cbn [fst snd];
    [discriminate | discriminate |].
  intros _.
  set (r1 := set_lastHeartbeat
               (set_votedFor (adoptTerm r (RequestVoteRequest.Term req1))
                  (RequestVoteRequest.CandidateId req1)) now1).
  assert (currentTerm r1 = RequestVoteRequest.Term req1) as Hct
    by (unfold r1; cbn; rewrite adoptTerm_currentTerm; lia).
  assert (votedFor r1 = RequestVoteRequest.CandidateId req1) as Hvf
    by reflexivity.
  split; [exact Hvf|].
  destruct (requestVote_cases r1 req2 now2)
    as [(_ & ->) | [(_ & _ & ->) | (_ & Hvote & _ & _)]].
  - reflexivity.
  - rewrite adoptTerm_le by lia. reflexivity.
  - rewrite adoptTerm_le in Hvote by lia. rewrite Hvf in Hvote.
    destruct Hvote as [H0 | Heq]; [contradiction|].
    symmetry in Heq. contradiction.
Qed.

(** Node 2 grants candidate 1 at term 1, and then denies candidate 3 of
    term 1. *)
Lemma requestVote_second_candidate_denied_witness :
  (requestVote (requestVote (NewRaft 2 peers23 0)
                  (RequestVoteRequest.mk 1 1 0 0) 3).1
     (RequestVoteRequest.mk 1 3 0 0) 4).2
  = RequestVoteResponse.mk 1 false.
Proof.
  destruct (requestVote_second_candidate_denied (NewRaft 2 peers23 0)
              (RequestVoteRequest.mk 1 1 0 0) (RequestVoteRequest.mk 1 3 0 0)
              3 4) as (_ & ->).
  - reflexivity.
  - discriminate.
  - vm_compute. discriminate.
  - discriminate.
  - reflexivity.
Defined.

(** X5: a candidate does not vote for a rival of its own term.  After
    [voteForSelf], a RequestVote of another candidate whose term is not
    above the candidate's new term is denied and changes nothing,
    provided the node's own id is not 0. *)
Theorem voteForSelf_denies_rival
    (r : Raft) (granted : Z) (req : RequestVoteRequest.t) (now : Z) :
  id r ≠ 0 →
  RequestVoteRequest.CandidateId req ≠ id r →
  RequestVoteRequest.Term req ≤ currentTerm (voteForSelf r granted).1 →
  requestVote (voteForSelf r granted).1 req now
  = ((voteForSelf r granted).1,
     RequestVoteResponse.mk (currentTerm (voteForSelf r granted).1) false).
Proof.
  intros Hid Hrival Hterm.
  set (c := (voteForSelf r granted).1) in *.
  assert (votedFor c = id r) as Hvf by reflexivity.
  destruct (requestVote_cases c req now)
    as [(_ & ->) | [(_ & _ & ->) | (_ & Hvote & _ & _)]].
  - reflexivity.
  - rewrite adoptTerm_le by exact Hterm. reflexivity.
  - rewrite adoptTerm_le in Hvote by exact Hterm. rewrite Hvf in Hvote.
    destruct Hvote as [H0 | Heq]; [contradiction|].
    symmetry in Heq. contradiction.
Qed.

(** Node 1 of a cluster of three starts an election at term 1 and is
    asked for its vote by node 2, a candidate of term 1 as well. *)
Lemma voteForSelf_denies_rival_witness :
  (requestVote (voteForSelf (NewRaft 1 peers23 0) 0).1
     (RequestVoteRequest.mk 1 2 0 0) 5).2
  = RequestVoteResponse.mk 1 false.
Proof.
  rewrite (voteForSelf_denies_rival (NewRaft 1 peers23 0) 0
             (RequestVoteRequest.mk 1 2 0 0) 5).
  - reflexivity.
  - discriminate.
  - discriminate.
  - vm_compute. discriminate.
Defined.

Lemma broadcastRequestVote_request_fields r :
  RequestVoteRequest.Term (broadcastRequestVote_request r) = currentTerm r
  ∧ RequestVoteRequest.CandidateId (broadcastRequestVote_request r) = id r
  ∧ RequestVoteRequest.LastLogId (broadcastRequestVote_request r)
    = (getLastLog r).1
  ∧ RequestVoteRequest.LastLogTerm (broadcastRequestVote_request r)
    = (getLastLog r).2.
Proof.
  unfold broadcastRequestVote_request. destruct (getLastLog r).
  repeat split.
Qed.

(** X6: the request a candidate broadcasts is granted by every node that
    is at a lower term and whose log is not ahead of the candidate's
    (its last entry is of a lower term, or of the same term with an id
    that is not greater): the voter moves to the candidate's term as a
    Follower, records the candidate as its vote, takes the request as a
    heartbeat, and keeps its log. *)
Theorem broadcastRequestVote_granted
    (candidate voter : Raft) (now : Z) :
  currentTerm voter < currentTerm candidate →
  ((getLastLog voter).2 < (getLastLog candidate).2
   ∨ ((getLastLog candidate).2 = (getLastLog voter).2
      ∧ (getLastLog voter).1 ≤ (getLastLog candidate).1)) →
  let out := requestVote voter (broadcastRequestVote_request candidate) now in
  out.2 = RequestVoteResponse.mk (currentTerm candidate) true
  ∧ state out.1 = Follower
  ∧ currentTerm out.1 = currentTerm candidate
  ∧ votedFor out.1 = id candidate
  ∧ lastHeartbeat out.1 = now
  ∧ logs out.1 = logs voter.
Proof.
  intros Hterm Hlog. cbv zeta.
  destruct (broadcastRequestVote_request_fields candidate)
    as (Ht & Hc & Hli & Hlt).
  set (req := broadcastRequestVote_request candidate) in *.
  assert (adoptTerm voter (RequestVoteRequest.Term req)
          = toFollower voter (currentTerm candidate)) as Hadopt.
  { unfold adoptTerm. rewrite Ht. case_cmp; [reflexivity | lia]. }
  assert (upToDate req voter) as Hup
    by (unfold upToDate; rewrite Hli, Hlt; exact Hlog).
  destruct (requestVote_cases voter req now)
    as [(Hstale & _) | [(_ & Hdeny & _) | (_ & _ & _ & ->)]].
  - rewrite Ht in Hstale. lia.
  - rewrite Hadopt in Hdeny. cbn in Hdeny.
    destruct Hdeny as [[H0 _] | Hn]; [congruence | contradiction].
  - rewrite Hadopt, Hc. cbn. repeat split.
Qed.

(** Node 1 starts the first election of a cluster of three; node 2, still
    at term 0 with an empty log, grants. *)
Lemma broadcastRequestVote_granted_witness :
  (requestVote (NewRaft 2 peers23 0)
     (broadcastRequestVote_request (voteForSelf (NewRaft 1 peers23 0) 0).1) 5).2
  = RequestVoteResponse.mk 1 true.
Proof.
  apply (broadcastRequestVote_granted (voteForSelf (NewRaft 1 peers23 0) 0).1
           (NewRaft 2 peers23 0) 5).
  - reflexivity.
  - right. split; [reflexivity | vm_compute; discriminate].
Defined.

(** X7: in [handleVoteResult] the threshold test runs on every result,
    granted or not.  A denial leaves the count as it is; when the count
    is already at [votesNeeded] the node ends the call as Leader all the
    same, even after stepping down in that call; below the threshold the
    node is only taken through term adoption. *)
Theorem handleVoteResult_denial
    (r : Raft) (vote : voteResult.t) (granted needed : Z) :
  voteResult.VoteGranted vote = false →
  let out := handleVoteResult r vote granted needed in
  out.2 = granted
  ∧ (needed ≤ granted →
     out.1 = toLeader (adoptTerm r (voteResult.Term vote)))
  ∧ (granted < needed → out.1 = adoptTerm r (voteResult.Term vote)).
Proof.
  intros Hdeny. cbv zeta. unfold handleVoteResult, adoptTerm.
  rewrite Hdeny. cbn [fst snd]. split; [reflexivity|].
  destruct (Z.leb_spec needed granted); split; intros; try lia; reflexivity.
Qed.

(** A denial of term 2 reaches a node of term 1 whose count is at the
    threshold: it becomes Leader of term 2. *)
Lemma handleVoteResult_denial_witness :
  state (handleVoteResult (mkRaft Candidate 1 1 [] 0 0 ∅ ∅ 1 peers23 0 [])
           (voteResult.mk (RequestVoteResponse.mk 2 false) 3) 2 2).1 = Leader.
Proof.
  pose proof (handleVoteResult_denial
                (mkRaft Candidate 1 1 [] 0 0 ∅ ∅ 1 peers23 0 [])
                (voteResult.mk (RequestVoteResponse.mk 2 false) 3) 2 2 eq_refl)
    as (_ & Hlead & _).
  rewrite Hlead; [reflexivity|]. vm_compute. discriminate.
Defined.

(** ** The follower's timer *)

(** X8: a Follower that has accepted an AppendEntries, or granted a vote,
    at clock reading [now] is not made a candidate by a timer that fires
    within [heartbeatTimeout] of [now]; an AppendEntries of a stale term
    and a denied vote leave [lastHeartbeat] alone, so they do not hold the
    election back. *)
Theorem heartbeat_holds_election_back
    (r : Raft) (now now' heartbeatTimeout : Z) :
  now' - now ≤ heartbeatTimeout →
  (∀ req, currentTerm r ≤ AppendEntriesRequest.Term req →
          runFollower_timeout (appendEntries r req now).1 now' heartbeatTimeout
          = (appendEntries r req now).1)
  ∧ (∀ req, RequestVoteResponse.VoteGranted (requestVote r req now).2 = true →
            runFollower_timeout (requestVote r req now).1 now' heartbeatTimeout
            = (requestVote r req now).1)
  ∧ (∀ req, AppendEntriesRequest.Term req < currentTerm r →
            lastHeartbeat (appendEntries r req now).1 = lastHeartbeat r)
  ∧ (∀ req, RequestVoteResponse.VoteGranted (requestVote r req now).2 = false →
            lastHeartbeat (requestVote r req now).1 = lastHeartbeat r).
Proof.
  intros Hsoon.
  assert (∀ x, lastHeartbeat x = now →
               runFollower_timeout x now' heartbeatTimeout = x) as Hquiet.
  { intros x Hx. unfold runFollower_timeout. rewrite Hx.
    case_cmp; [lia | reflexivity]. }
  split.
  { intros req Hle. apply Hquiet.
    destruct (appendEntries_cases r req now)
      as [(Hlt & _) | [(_ & _ & ->) | (_ & _ & ->)]]; [lia| |]; cbn [fst].
    - apply stepDown_frame.
    - destruct (accepted_frame (appendEntries_stepDown r req now) req)
        as (_ & _ & _ & _ & _ & -> & _).
      apply stepDown_frame. }
  split.
  { intros req. destruct (requestVote_cases r req now)
      as [(_ & ->) | [(_ & _ & ->) | (_ & _ & _ & ->)]]; cbn [fst snd];
      [discriminate | discriminate |].
    intros _. apply Hquiet. reflexivity. }
  split.
  { intros req Hlt. destruct (appendEntries_cases r req now)
      as [(_ & ->) | [(Hle & _) | (Hle & _)]]; [reflexivity | lia | lia]. }
  intros req. destruct (requestVote_cases r req now)
    as [(_ & ->) | [(_ & _ & ->) | (_ & _ & _ & ->)]]; cbn [fst snd];
    [reflexivity | | discriminate].
  intros _. unfold adoptTerm. case_cmp; reflexivity.
Qed.

(** A heartbeat taken at reading 100 and a timer firing at reading 150,
    with a timeout of 100. *)
Lemma heartbeat_holds_election_back_witness :
  state (runFollower_timeout
           (appendEntries (NewRaft 2 peers23 0)
              (AppendEntriesRequest.mk 1 1 0 0 [] 0) 100).1 150 100)
  = Follower.
Proof.
  pose proof (heartbeat_holds_election_back (NewRaft 2 peers23 0) 100 150 100)
    as H.
  destruct H as (Hae & _); [vm_compute; discriminate|].
  rewrite Hae; [reflexivity|]. vm_compute. discriminate.
Defined.

(** ** Reconciliation of the log, in general *)

(** The walk passes over the entries that the log holds with their
    term. *)
Lemma walk_skip_present r pre rest i d :
  (∀ x, x ∈ pre →
        ∃ x', getLog r (Entry.Id x) = Some x' ∧ Entry.Term x' = Entry.Term x) →
  appendEntries_walk r (pre ++ rest) i d
  = appendEntries_walk r rest (i + length pre)%nat d.
Proof.
  revert i. induction pre as [|x pre IH]; intros i Hall.
  - cbn. f_equal. lia.
  - cbn [app appendEntries_walk].
    destruct (Hall x) as (x' & -> & Hterm); [left|].
    rewrite Hterm, Z.eqb_refl. cbn [negb].
    rewrite IH by (intros y Hy; apply Hall; right; exact Hy).
    cbn [length]. f_equal. lia.
Qed.

Lemma store_nonempty r req pre e post :
  AppendEntriesRequest.Entries req = pre ++ e :: post →
  appendEntries_store r req
  = let '(startIndex, r0) :=
      appendEntries_walk r (pre ++ e :: post) 0
        (length (pre ++ e :: post) - 1)%nat in
    appendLogs r0 (drop startIndex (pre ++ e :: post)).
Proof.
  intros Hent. unfold appendEntries_store. rewrite Hent.
  unfold len. rewrite length_app. cbn [length].
  destruct (Z.eqb_spec (Z.of_nat (length pre + S (length post))) 0); [lia|].
  reflexivity.
Qed.

Lemma appendEntries_success r req now :
  AppendEntriesResponse.Success (appendEntries r req now).2 = true →
  (appendEntries r req now).1
  = appendEntries_commit
      (appendEntries_store (appendEntries_stepDown r req now) req) req.
Proof.
  destruct (appendEntries_cases r req now)
    as [(_ & ->) | [(_ & _ & ->) | (_ & _ & ->)]]; cbn [fst snd];
    [discriminate | discriminate | reflexivity].
Qed.

(** X9: when an accepted AppendEntries carries entries of which the first
    ones are in the log with their terms and the next one, [e], is not in
    the log at all, nothing is removed: [e] and the entries after it are
    added at the end of the log. *)
Theorem appendEntries_appends_missing
    (r : Raft) (req : AppendEntriesRequest.t) (now : Z)
    (pre : list Entry.t) (e : Entry.t) (post : list Entry.t) :
  AppendEntriesResponse.Success (appendEntries r req now).2 = true →
  AppendEntriesRequest.Entries req = pre ++ e :: post →
  (∀ x, x ∈ pre →
        ∃ x', getLog r (Entry.Id x) = Some x' ∧ Entry.Term x' = Entry.Term x) →
  getLog r (Entry.Id e) = None →
  logs (appendEntries r req now).1 = logs r ++ e :: post.
Proof.
  intros Hok Hent Hpre Hmiss.
  rewrite (appendEntries_success _ _ _ Hok), commit_logs.
  set (r1 := appendEntries_stepDown r req now).
  assert (logs r1 = logs r) as Hlogs by apply stepDown_logs.
  rewrite (store_nonempty r1 req pre e post Hent).
  rewrite walk_skip_present
    by (intros x Hx; rewrite (getLog_logs r1 r) by exact Hlogs; auto).
  cbn [appendEntries_walk].
  rewrite (getLog_logs r1 r) by exact Hlogs. rewrite Hmiss.
  unfold appendLogs. cbn [logs set_logs Nat.add].
  rewrite drop_app_length, Hlogs. reflexivity.
Qed.

(** The first AppendEntries of a follower with an empty log. *)
Lemma appendEntries_appends_missing_witness :
  logs (appendEntries (NewRaft 2 peers23 0)
          (AppendEntriesRequest.mk 1 1 0 0 [entry_a; entry_b] 0) 5).1
  = [entry_a; entry_b].
Proof.
  apply (appendEntries_appends_missing (NewRaft 2 peers23 0)
           (AppendEntriesRequest.mk 1 1 0 0 [entry_a; entry_b] 0) 5
           [] entry_a [entry_b]).
  - reflexivity.
  - reflexivity.
  - intros x Hx. inversion Hx.
  - reflexivity.
Defined.

(** X10: when an accepted AppendEntries carries entries of which the
    first ones are in the log with their terms and the next one, [e], is
    in the log with another term, the log keeps exactly its entries of id
    below that of [e], in their order, and [e] and the entries after it
    are added at the end. *)
Theorem appendEntries_overwrites_conflict
    (r : Raft) (req : AppendEntriesRequest.t) (now : Z)
    (pre : list Entry.t) (e : Entry.t) (post : list Entry.t) (e' : Entry.t) :
  AppendEntriesResponse.Success (appendEntries r req now).2 = true →
  AppendEntriesRequest.Entries req = pre ++ e :: post →
  (∀ x, x ∈ pre →
        ∃ x', getLog r (Entry.Id x) = Some x' ∧ Entry.Term x' = Entry.Term x) →
  getLog r (Entry.Id e) = Some e' →
  Entry.Term e' ≠ Entry.Term e →
  1 ≤ Entry.Id e < u64_modulus →
  logs (appendEntries r req now).1
  = filter (λ x, Entry.Id x < Entry.Id e) (logs r) ++ e :: post.
Proof.
  intros Hok Hent Hpre Hget Hterm Hid.
  rewrite (appendEntries_success _ _ _ Hok), commit_logs.
  set (r1 := appendEntries_stepDown r req now).
  assert (logs r1 = logs r) as Hlogs by apply stepDown_logs.
  rewrite (store_nonempty r1 req pre e post Hent).
  rewrite walk_skip_present
    by (intros x Hx; rewrite (getLog_logs r1 r) by exact Hlogs; auto).
  cbn [appendEntries_walk].
  rewrite (getLog_logs r1 r) by exact Hlogs. rewrite Hget.
  destruct (Z.eqb_spec (Entry.Term e') (Entry.Term e)); [contradiction|].
  cbn [negb]. unfold appendLogs, deleteLogs. cbn [logs set_logs Nat.add].
  rewrite drop_app_length, Hlogs. f_equal.
  apply list_filter_iff. intros x.
  unfold u64_sub. rewrite u64_small by (unfold is_u64; lia). lia.
Qed.

(** The follower of three entries of term 1 is sent entries 1 and 2, the
    second one of term 2. *)
Lemma appendEntries_overwrites_conflict_witness :
  logs (appendEntries
          (mkRaft Follower 1 0 [entry_a; entry_b; entry_c] 0 0 ∅ ∅ 3
                  peers23 0 [])
          (AppendEntriesRequest.mk 2 2 0 0 [entry_a; entry_b'] 0) 7).1
  = [entry_a; entry_b'].
Proof.
  apply (appendEntries_overwrites_conflict
           (mkRaft Follower 1 0 [entry_a; entry_b; entry_c] 0 0 ∅ ∅ 3
                   peers23 0 [])
           (AppendEntriesRequest.mk 2 2 0 0 [entry_a; entry_b'] 0) 7
           [entry_a] entry_b' [] entry_b).
  - reflexivity.
  - reflexivity.
  - intros x Hx. apply list_elem_of_singleton in Hx as ->.
    exists entry_a. split; reflexivity.
  - reflexivity.
  - discriminate.
  - split; [vm_compute; discriminate | reflexivity].
Defined.

(** X11: after an accepted AppendEntries the commit index is the lesser
    of the leader's commit index and the id of the last entry of the log
    as the request left it, when the leader's commit index is above the
    node's; otherwise it keeps its value. *)
Theorem appendEntries_commit_rule
    (r : Raft) (req : AppendEntriesRequest.t) (now : Z) :
  AppendEntriesResponse.Success (appendEntries r req now).2 = true →
  let r' := (appendEntries r req now).1 in
  (commitIndex r < AppendEntriesRequest.LeaderCommitId req →
   commitIndex r'
   = Z.min (AppendEntriesRequest.LeaderCommitId req) (getLastLog r').1)
  ∧ (AppendEntriesRequest.LeaderCommitId req ≤ commitIndex r →
     commitIndex r' = commitIndex r).
Proof.
  intros Hok. cbv zeta. rewrite (appendEntries_success _ _ _ Hok).
  set (r3 := appendEntries_store (appendEntries_stepDown r req now) req).
  assert (commitIndex r3 = commitIndex r) as Hci
    by (unfold r3; rewrite store_commitIndex; apply stepDown_commitIndex).
  rewrite (getLastLog_logs (appendEntries_commit r3 req) r3)
    by apply commit_logs.
  unfold appendEntries_commit. rewrite Hci.
  destruct (Z.ltb_spec (commitIndex r) (AppendEntriesRequest.LeaderCommitId req)).
  - split; [|lia]. intros _.
    destruct (getLastLog r3) as [lastId lastTerm]. cbn [fst].
    case_cmp; cbn; lia.
  - split; [lia|]. intros _. exact Hci.
Qed.

(** A follower that receives two entries from a leader that has committed
    five commits the two. *)
Lemma appendEntries_commit_rule_witness :
  commitIndex (appendEntries (NewRaft 2 peers23 0)
                 (AppendEntriesRequest.mk 1 1 0 0 [entry_a; entry_b] 5) 5).1
  = 2.
Proof.
  pose proof (appendEntries_commit_rule (NewRaft 2 peers23 0)
                (AppendEntriesRequest.mk 1 1 0 0 [entry_a; entry_b] 5) 5
                eq_refl) as (Hup & _).
  rewrite Hup; reflexivity.
Defined.

(** ** Well-formed logs *)

Lemma getLog_wf_lookup r (j : nat) e :
  log_wf (logs r) → logs r !! j = Some e → getLog r (Z.of_nat j + 1) = Some e.
Proof.
  intros Hwf Hj. unfold getLog.
  assert (list_find (λ x, Entry.Id x = Z.of_nat j + 1) (logs r) = Some (j, e))
    as ->; [|reflexivity].
  apply list_find_Some. split; [exact Hj|]. split; [apply Hwf; exact Hj|].
  intros j' y Hj' Hlt Hy. rewrite (Hwf j' y Hj') in Hy. lia.
Qed.

Lemma getLog_wf_outside r i :
  log_wf (logs r) → i ≤ 0 ∨ len (logs r) < i → getLog r i = None.
Proof.
  intros Hwf Hout. apply getLog_None. intros e He.
  apply list_elem_of_lookup in He as [j Hj].
  rewrite (Hwf j e Hj). apply lookup_lt_Some in Hj. unfold len in Hout. lia.
Qed.

Lemma suffixFrom_ids_from (k0 fromId : Z) (l : list Entry.t) :
  (∀ (i : nat) e, l !! i = Some e → Entry.Id e = Z.of_nat i + k0) →
  suffixFrom fromId l = drop (Z.to_nat (fromId - k0)) l.
Proof.
  revert k0. induction l as [|a l IH]; intros k0 Hids; cbn [suffixFrom].
  - rewrite drop_nil. reflexivity.
  - pose proof (Hids 0%nat a eq_refl) as Ha.
    destruct (Z.ltb_spec (Entry.Id a) fromId) as [Hlt|Hge].
    + rewrite (IH (k0 + 1))
        by (intros i e Hi; rewrite (Hids (S i) e Hi); lia).
      replace (Z.to_nat (fromId - k0)) with (S (Z.to_nat (fromId - (k0 + 1))))
        by lia.
      reflexivity.
    + replace (Z.to_nat (fromId - k0)) with 0%nat by lia. reflexivity.
Qed.

Lemma getLogs_wf r fromId :
  log_wf (logs r) → getLogs r fromId = drop (Z.to_nat (fromId - 1)) (logs r).
Proof. intros Hwf. apply suffixFrom_ids_from. exact Hwf. Qed.

Lemma getLastLog_wf r :
  log_wf (logs r) → (getLastLog r).1 = len (logs r).
Proof.
  intros Hwf. unfold getLastLog, len.
  destruct (last (logs r)) as [e|] eqn:Hlast.
  - rewrite last_lookup in Hlast. cbn [fst].
    rewrite (Hwf _ _ Hlast).
    apply lookup_lt_Some in Hlast. lia.
  - apply last_None in Hlast. rewrite Hlast. reflexivity.
Qed.

Lemma log_wf_take l (n : nat) : log_wf l → log_wf (take n l).
Proof.
  intros Hwf i e Hi. apply lookup_take_Some in Hi as [Hi _].
  apply Hwf. exact Hi.
Qed.

(** ** ApplyCommand and the log invariant *)

(** X12: [applyCommand] keeps the log well-formed.  On a Leader whose log
    has the entry at position [i] carry id [i], and is short of the range
    of [uint64], the new entry takes the next id, so the log has the same
    form after the call, and its last entry is [(len + 1, currentTerm)]. *)
Theorem applyCommand_log_wf (r : Raft) (req : ApplyCommandRequest.t) :
  state r = Leader →
  log_wf (logs r) →
  len (logs r) + 1 < u64_modulus →
  log_wf (logs (applyCommand r req).1)
  ∧ getLastLog (applyCommand r req).1 = (len (logs r) + 1, currentTerm r).
Proof.
  intros Hlead Hwf Hlen.
  pose proof (getLastLog_wf r Hwf) as Hlast.
  unfold applyCommand. rewrite Hlead. cbn [bool_decide decide_rel].
  destruct (bool_decide (Leader ≠ Leader)) eqn:Hb;
    [apply bool_decide_eq_true in Hb; contradiction|].
  destruct (getLastLog r) as [id0 term0]. cbn [fst] in Hlast. subst id0.
  cbn [fst appendLogs logs set_logs].
  assert (u64_add (len (logs r)) 1 = len (logs r) + 1) as Hid.
  { unfold u64_add. apply u64_small. unfold is_u64.
    pose proof (len_nonneg (logs r)). lia. }
  rewrite Hid. split.
  - intros i e Hi. apply lookup_app_Some in Hi as [Hi | [Hge Hi]].
    + apply Hwf. exact Hi.
    + apply list_lookup_singleton_Some in Hi as [Hi0 <-]. cbn.
      unfold len. lia.
  - unfold getLastLog, appendLogs. cbn [logs set_logs].
    rewrite last_snoc. reflexivity.
Qed.

(** The first command of a leader with an empty log. *)
Lemma applyCommand_log_wf_witness :
  getLastLog (applyCommand (mkRaft Leader 1 1 [] 0 0 ∅ ∅ 1 peers23 0 [])
                (ApplyCommandRequest.mk "x")).1 = (1, 1).
Proof.
  apply (applyCommand_log_wf (mkRaft Leader 1 1 [] 0 0 ∅ ∅ 1 peers23 0 [])
           (ApplyCommandRequest.mk "x")).
  - reflexivity.
  - intros i e Hi. inversion Hi.
  - reflexivity.
Defined.

(** ** The leader's indexes and requests *)

Lemma reset_fold (a : Z) (l : list (Z * Peer)) (r : Raft) :
  let r' :=
    foldr (λ (kv : Z * Peer) r0,
             set_matchIndex (set_nextIndex r0 (<[kv.1 := a]> (nextIndex r0)))
               (<[kv.1 := 0]> (matchIndex r0)))
          r l in
  (∀ p, p ∈ l.*1 →
        nextIndex r' !! p = Some a ∧ matchIndex r' !! p = Some 0)
  ∧ (∀ p, p ∉ l.*1 →
          nextIndex r' !! p = nextIndex r !! p
          ∧ matchIndex r' !! p = matchIndex r !! p)
  ∧ set_matchIndex (set_nextIndex r' (nextIndex r)) (matchIndex r) = r.
Proof.
  cbv zeta. induction l as [|[k v] l (IHin & IHout & IHrest)]; cbn [foldr fmap list_fmap].
  - split; [intros p Hp; inversion Hp|]. split; [auto|].
    unfold set_matchIndex, set_nextIndex. cbn. apply Raft_eta.
  - cbn [fst nextIndex matchIndex set_matchIndex set_nextIndex].
    split; [|split].
    + intros p Hp. destruct (decide (k = p)) as [->|Hne].
      * rewrite !lookup_insert_eq. auto.
      * rewrite !lookup_insert_ne by exact Hne. apply IHin.
        apply elem_of_cons in Hp as [Hp | Hp]; [congruence | exact Hp].
    + intros p Hp. apply not_elem_of_cons in Hp as [Hne Hp].
      rewrite !lookup_insert_ne by congruence. apply IHout. exact Hp.
    + exact IHrest.
Qed.

Lemma runLeader_reset_fields (r : Raft) :
  let r' := runLeader_reset r in
  (∀ p, is_Some (peers r !! p) →
        nextIndex r' !! p = Some (u64_add (getLastLog r).1 1)
        ∧ matchIndex r' !! p = Some 0)
  ∧ (∀ p, peers r !! p = None →
          nextIndex r' !! p = nextIndex r !! p
          ∧ matchIndex r' !! p = matchIndex r !! p)
  ∧ set_matchIndex (set_nextIndex r' (nextIndex r)) (matchIndex r) = r.
Proof.
  cbv zeta. unfold runLeader_reset.
  destruct (getLastLog r) as [lastLogId lastTerm]. cbn [fst].
  destruct (reset_fold (u64_add lastLogId 1) (map_to_list (peers r)) r)
    as (Hin & Hout & Hrest).
  split; [|split; [|exact Hrest]].
  - intros p [v Hp]. apply Hin. apply list_elem_of_fmap.
    exists (p, v). split; [reflexivity|]. apply elem_of_map_to_list. exact Hp.
  - intros p Hp. apply Hout. intros Hin'.
    apply list_elem_of_fmap in Hin' as ([k v] & -> & Hkv).
    apply elem_of_map_to_list in Hkv. cbn in Hp. congruence.
Qed.

(** X13: the reset at the start of [runLeader] gives every peer
    [nextIndex = lastLogId + 1] (in [uint64]) and [matchIndex = 0],
    leaves the entries of the two maps under other keys as they were,
    and changes nothing else of the node: putting the old maps back
    gives the old node. *)
Theorem runLeader_reset_spec (r : Raft) :
  let r' := runLeader_reset r in
  (∀ p, is_Some (peers r !! p) →
        nextIndex r' !! p = Some (u64_add (getLastLog r).1 1)
        ∧ matchIndex r' !! p = Some 0)
  ∧ (∀ p, peers r !! p = None →
          nextIndex r' !! p = nextIndex r !! p
          ∧ matchIndex r' !! p = matchIndex r !! p)
  ∧ set_matchIndex (set_nextIndex r' (nextIndex r)) (matchIndex r) = r.
Proof. exact (runLeader_reset_fields r). Qed.

(** The request for a peer is read off the log by position when the log
    is well-formed. *)
Lemma broadcastAppendEntries_request_wf r peerId :
  log_wf (logs r) →
  let k := mapGet (nextIndex r) peerId in
  mapGet (matchIndex r) peerId < (getLastLog r).1 →
  1 ≤ k ≤ len (logs r) + 1 →
  k < u64_modulus →
  broadcastAppendEntries_request r peerId
  = AppendEntriesRequest.mk (currentTerm r) (id r) (k - 1)
      (from_option Entry.Term 0 (getLog r (k - 1)))
      (drop (Z.to_nat (k - 1)) (logs r)) (commitIndex r)
  ∧ (2 ≤ k → ∃ p, logs r !! Z.to_nat (k - 2) = Some p
                  ∧ getLog r (k - 1) = Some p).
Proof.
  intros Hwf k Hmatch Hk Hk64. unfold broadcastAppendEntries_request.
  fold k. destruct (getLastLog r) as [lastId lastTerm]. cbn [fst] in Hmatch.
  destruct (Z.ltb_spec (mapGet (matchIndex r) peerId) lastId); [|lia].
  rewrite (getLogs_wf r k Hwf).
  assert (u64_sub k 1 = k - 1) as ->
    by (unfold u64_sub; apply u64_small; unfold is_u64; lia).
  destruct (decide (k = 1)) as [Hk1 | Hk1].
  - replace (k - 1) with 0 by lia.
    rewrite (getLog_wf_outside r 0 Hwf) by lia.
    split; [reflexivity | lia].
  - assert (is_Some (logs r !! Z.to_nat (k - 2))) as [p Hp]
      by (apply lookup_lt_is_Some; unfold len in Hk; lia).
    assert (getLog r (k - 1) = Some p) as Hget.
    { replace (k - 1) with (Z.of_nat (Z.to_nat (k - 2)) + 1) by lia.
      apply getLog_wf_lookup; assumption. }
    rewrite Hget. cbn [from_option].
    rewrite (Hwf _ _ Hp).
    replace (Z.of_nat (Z.to_nat (k - 2)) + 1) with (k - 1) by lia.
    split; [reflexivity|]. intros _. exists p. auto.
Qed.

Lemma runLeader_reset_rest r :
  logs (runLeader_reset r) = logs r
  ∧ currentTerm (runLeader_reset r) = currentTerm r
  ∧ id (runLeader_reset r) = id r
  ∧ commitIndex (runLeader_reset r) = commitIndex r
  ∧ state (runLeader_reset r) = state r
  ∧ votedFor (runLeader_reset r) = votedFor r
  ∧ peers (runLeader_reset r) = peers r.
Proof.
  destruct (runLeader_reset_fields r) as (_ & _ & Hrest).
  rewrite <- Hrest at 2 4 6 8 10 12 14. repeat split.
Qed.

Lemma reset_request r p :
  log_wf (logs r) →
  len (logs r) + 1 < u64_modulus →
  is_Some (peers r !! p) →
  broadcastAppendEntries_request (runLeader_reset r) p
  = AppendEntriesRequest.mk (currentTerm r) (id r) (getLastLog r).1
      (getLastLog r).2 [] (commitIndex r).
Proof.
  intros Hwf Hlen Hp.
  destruct (runLeader_reset_fields r) as (Hin & _ & _). cbv zeta in Hin.
  destruct (Hin p Hp) as (Hnext & Hmatch).
  destruct (runLeader_reset_rest r) as (Hlg & Hct & Hid & Hci & _).
  set (r' := runLeader_reset r) in *.
  pose proof (getLastLog_wf r Hwf) as Hlast.
  pose proof (len_nonneg (logs r)) as Hnn.
  assert (mapGet (nextIndex r') p = len (logs r) + 1) as Hk.
  { unfold mapGet. rewrite Hnext, Hlast. cbn. unfold u64_add.
    apply u64_small. unfold is_u64. lia. }
  assert (mapGet (matchIndex r') p = 0) as Hm
    by (unfold mapGet; rewrite Hmatch; reflexivity).
  assert (getLastLog r' = getLastLog r) as Hll
    by (apply getLastLog_logs; exact Hlg).
  destruct (decide (len (logs r) = 0)) as [Hempty | Hne].
  - unfold broadcastAppendEntries_request. rewrite Hm, Hll.
    destruct (getLastLog r) as [lastId lastTerm] eqn:Hg. cbn [fst] in Hlast.
    rewrite Hlast, Hempty. cbn [Z.ltb Z.compare].
    rewrite Hct, Hid, Hci. cbn [fst snd].
    assert (logs r = []) as Hnil
      by (destruct (logs r);
          [reflexivity | unfold len in Hempty; cbn [length] in Hempty; lia]).
    unfold getLastLog in Hg. rewrite Hnil in Hg. cbn in Hg.
    injection Hg as <- <-. reflexivity.
  - assert (log_wf (logs r')) as Hwf' by (rewrite Hlg; exact Hwf).
    destruct (broadcastAppendEntries_request_wf r' p Hwf')
      as (-> & Hprev); cbv zeta; rewrite ?Hk, ?Hm, ?Hll, ?Hlg; try lia.
    destruct Hprev as (e & He & Hget); [rewrite Hk; lia|].
    rewrite Hk in He, Hget. rewrite Hlg in He.
    replace (len (logs r) + 1 - 1) with (len (logs r)) in * by lia.
    rewrite Hget. cbn [from_option].
    replace (Z.to_nat (len (logs r))) with (length (logs r))
      by (unfold len; lia).
    rewrite drop_all, Hct, Hid, Hci.
    assert (last (logs r) = Some e) as Hl.
    { rewrite last_lookup. rewrite <- He. f_equal. unfold len. lia. }
    unfold getLastLog. rewrite Hl. cbn [fst snd].
    rewrite (Hwf _ _ He). f_equal. unfold len in *. lia.
Qed.

(** X14: every request of the first broadcast of a new leader, the one
    that follows the reset of [runLeader], carries no entries and names
    the leader's last entry as the previous one ([(0, 0)] when the log is
    empty), for a well-formed log short of the range of [uint64]. *)
Theorem first_broadcast_after_election
    (r : Raft) (p : Z) (req : AppendEntriesRequest.t) :
  log_wf (logs r) →
  len (logs r) + 1 < u64_modulus →
  (p, req) ∈ broadcastAppendEntries (runLeader_reset r) →
  req = AppendEntriesRequest.mk (currentTerm r) (id r) (getLastLog r).1
          (getLastLog r).2 [] (commitIndex r).
Proof.
  intros Hwf Hlen Hin. unfold broadcastAppendEntries in Hin.
  apply list_elem_of_fmap in Hin as ([k v] & Heq & Hkv).
  cbn [fst] in Heq. injection Heq as -> ->.
  apply elem_of_map_to_list in Hkv.
  destruct (runLeader_reset_rest r) as (_ & _ & _ & _ & _ & _ & Hpeers).
  rewrite Hpeers in Hkv.
  apply reset_request; [exact Hwf | exact Hlen | eexists; exact Hkv].
Qed.

(** A leader elected with two entries in its log, and its request for
    peer 2. *)
Lemma first_broadcast_after_election_witness :
  AppendEntriesRequest.mk 1 1 2 1 [] 0
  = AppendEntriesRequest.mk (currentTerm leader_term1) (id leader_term1)
      (getLastLog leader_term1).1 (getLastLog leader_term1).2 []
      (commitIndex leader_term1).
Proof.
  apply (first_broadcast_after_election leader_term1 2).
  - intros i e.
    do 2 (destruct i as [|i]; [intros [= <-]; reflexivity|]).
    intros Hnone. discriminate Hnone.
  - reflexivity.
  - apply list_elem_of_fmap. exists (2, PeerClient).
    split; [reflexivity|]. apply elem_of_map_to_list. reflexivity.
Defined.

(** ** Replication, end to end *)

(** X15: a follower that holds the leader's log up to [nextIndex - 1],
    and is at a term not above the leader's, accepts the request the
    leader builds for it and ends with the leader's log, for a
    well-formed leader log and [nextIndex] between 1 and the length of
    the log plus 1. *)
Theorem replication_catches_up
    (leader follower : Raft) (peer now : Z) :
  log_wf (logs leader) →
  1 ≤ mapGet (nextIndex leader) peer ≤ len (logs leader) + 1 →
  mapGet (nextIndex leader) peer < u64_modulus →
  mapGet (matchIndex leader) peer < (getLastLog leader).1 →
  logs follower
  = take (Z.to_nat (mapGet (nextIndex leader) peer - 1)) (logs leader) →
  currentTerm follower ≤ currentTerm leader →
  let out :=
    appendEntries follower (broadcastAppendEntries_request leader peer) now in
  out.2 = AppendEntriesResponse.mk (currentTerm leader) true
  ∧ logs out.1 = logs leader.
Proof.
  intros Hwf Hk Hk64 Hmatch Hprefix Hterm. cbv zeta.
  destruct (broadcastAppendEntries_request_wf leader peer Hwf Hmatch Hk Hk64)
    as (Hreq & Hprev).
  set (k := mapGet (nextIndex leader) peer) in *.
  set (req := broadcastAppendEntries_request leader peer) in *.
  set (r1 := appendEntries_stepDown follower req now).
  assert (logs r1 = take (Z.to_nat (k - 1)) (logs leader)) as Hlogs1
    by (unfold r1; rewrite stepDown_logs; exact Hprefix).
  assert (log_wf (logs r1)) as Hwf1
    by (rewrite Hlogs1; apply log_wf_take; exact Hwf).
  assert (AppendEntriesRequest.Term req = currentTerm leader) as HreqT
    by (rewrite Hreq; reflexivity).
  assert (AppendEntriesRequest.Entries req
          = drop (Z.to_nat (k - 1)) (logs leader)) as HreqE
    by (rewrite Hreq; reflexivity).
  (* the previous entry is the last one of the follower's log *)
  assert (appendEntries_prevMismatch r1 req = false) as Hpm.
  { unfold appendEntries_prevMismatch. rewrite Hreq.
    cbn [AppendEntriesRequest.PrevLogId AppendEntriesRequest.PrevLogTerm].
    destruct (Z.eqb_spec (k - 1) 0) as [|Hk1]; [reflexivity|].
    destruct Hprev as (p & Hp & Hget); [lia|].
    rewrite Hget. cbn [from_option negb andb].
    destruct (Z.eqb_spec (Entry.Term p) 0); [reflexivity|]. cbn [negb andb].
    assert (getLog r1 (k - 1) = Some p) as ->.
    { replace (k - 1) with (Z.of_nat (Z.to_nat (k - 2)) + 1) by lia.
      apply getLog_wf_lookup; [exact Hwf1|].
      rewrite Hlogs1, lookup_take_lt by lia. exact Hp. }
    rewrite Z.eqb_refl. reflexivity. }
  (* the entries sent are those the follower lacks *)
  assert (logs (appendEntries_store r1 req) = logs leader) as Hstore.
  { destruct (drop (Z.to_nat (k - 1)) (logs leader)) as [|e post] eqn:Hdrop.
    - unfold appendEntries_store. rewrite HreqE.
      change (negb (len (@nil Entry.t) =? 0)) with false. cbn match.
      rewrite Hlogs1. apply take_ge.
      apply drop_nil_inv in Hdrop. exact Hdrop.
    - rewrite (store_nonempty r1 req [] e post) by exact HreqE.
      cbn [app appendEntries_walk].
      assert (logs leader !! Z.to_nat (k - 1) = Some e) as He.
      { rewrite <- (Nat.add_0_r (Z.to_nat (k - 1))), <- lookup_drop, Hdrop.
        reflexivity. }
      rewrite (getLog_wf_outside r1 (Entry.Id e) Hwf1).
      + unfold appendLogs. cbn [logs set_logs drop].
        rewrite Hlogs1, <- Hdrop. apply take_drop.
      + right. rewrite (Hwf _ _ He), Hlogs1. unfold len.
        rewrite length_take. lia. }
  destruct (appendEntries_cases follower req now)
    as [(Hstale & _) | [(_ & Hbad & _) | (_ & _ & ->)]].
  - lia.
  - fold r1 in Hbad. congruence.
  - cbn [fst snd]. fold r1. rewrite commit_logs, HreqT.
    split; [reflexivity | exact Hstore].
Qed.

(** The leader of term 1 with entries 1 and 2 sends entry 2 to peer 2,
    which holds entry 1. *)
Lemma replication_catches_up_witness :
  logs (appendEntries (mkRaft Follower 1 1 [entry_a] 0 0 ∅ ∅ 2 peers23 0 [])
          (broadcastAppendEntries_request leader_term1 2) 9).1
  = [entry_a; entry_b].
Proof.
  apply (replication_catches_up leader_term1
           (mkRaft Follower 1 1 [entry_a] 0 0 ∅ ∅ 2 peers23 0 []) 2 9).
  - intros i e.
    do 2 (destruct i as [|i]; [intros [= <-]; reflexivity|]).
    intros Hnone. discriminate Hnone.
  - split; vm_compute; discriminate.
  - reflexivity.
  - reflexivity.
  - reflexivity.
  - vm_compute. discriminate.
Defined.

Lemma adoptTerm_frame r t :
  nextIndex (adoptTerm r t) = nextIndex r
  ∧ matchIndex (adoptTerm r t) = matchIndex r
  ∧ logs (adoptTerm r t) = logs r.
Proof. unfold adoptTerm. case_cmp; repeat split. Qed.

(** What [handleAppendEntriesResult] leaves of the node after the update
    of the indexes: the maps and the log. *)
Lemma handleAppendEntriesResult_frame r result :
  nextIndex (handleAppendEntriesResult r result)
  = nextIndex (afterIndexUpdate r result)
  ∧ matchIndex (handleAppendEntriesResult r result)
    = matchIndex (afterIndexUpdate r result)
  ∧ logs (handleAppendEntriesResult r result) = logs r.
Proof.
  rewrite handleAppendEntriesResult_unfold. cbv zeta.
  set (r2 := afterIndexUpdate r result).
  destruct (commitScan_frame r2 (majority (clusterSize r2))
              (reverse (getLogs r2 (u64_add (commitIndex r2) 1))))
    as (_ & _ & _ & -> & -> & -> & _).
  destruct (afterIndexUpdate_frame r result) as (_ & _ & _ & Hlg & _).
  auto.
Qed.

Lemma suffixFrom_last fromId l :
  suffixFrom fromId l ≠ [] → last (suffixFrom fromId l) = last l.
Proof.
  induction l as [|a l IH]; cbn [suffixFrom]; [reflexivity|].
  destruct (Entry.Id a <? fromId); [|reflexivity].
  intros Hne. rewrite (IH Hne), last_cons.
  destruct (last l) as [y|] eqn:Hl; [reflexivity|].
  apply last_None in Hl. subst l. contradiction.
Qed.

(** The entries of a request built for a peer are the suffix of the log
    that [getLogs] gives, or none at all. *)
Lemma broadcastAppendEntries_request_entries r peerId :
  AppendEntriesRequest.Entries (broadcastAppendEntries_request r peerId) = []
  ∨ AppendEntriesRequest.Entries (broadcastAppendEntries_request r peerId)
    = getLogs r (mapGet (nextIndex r) peerId).
Proof.
  unfold broadcastAppendEntries_request.
  destruct (getLastLog r) as [lastId lastTerm].
  case_cmp; [|left; reflexivity].
  right. destruct (getLog r _); reflexivity.
Qed.

(** X16: the leader learns from a success.  When the response to the
    request built for a peer, a request that carried entries, comes back
    with [success = true], [matchIndex] of the peer becomes the id of the
    last entry the leader's log had when the request was built, and
    [nextIndex] one more (in [uint64]); this holds whatever the log and
    the indexes were, and in whatever state the response finds the
    node. *)
Theorem success_response_records_replication
    (leader r : Raft) (peer : Z) (resp : AppendEntriesResponse.t) :
  AppendEntriesRequest.Entries (broadcastAppendEntries_request leader peer)
  ≠ [] →
  AppendEntriesResponse.Success resp = true →
  let result :=
    appendEntriesResult.mk resp (broadcastAppendEntries_request leader peer)
      peer in
  let r' := handleAppendEntriesResult r result in
  mapGet (matchIndex r') peer = (getLastLog leader).1
  ∧ mapGet (nextIndex r') peer = u64_add (getLastLog leader).1 1.
Proof.
  intros Hne Hok. cbv zeta.
  set (req := broadcastAppendEntries_request leader peer) in *.
  assert (∃ e, last (AppendEntriesRequest.Entries req) = Some e
               ∧ Entry.Id e = (getLastLog leader).1) as (e & He & Hid).
  { destruct (broadcastAppendEntries_request_entries leader peer)
      as [Hnil | Hsuf]; fold req in Hnil || fold req in Hsuf;
      [contradiction|].
    rewrite Hsuf in Hne |- *. unfold getLogs in *.
    rewrite (suffixFrom_last _ _ Hne).
    unfold getLastLog. destruct (last (logs leader)) as [e|] eqn:Hl.
    - exists e. auto.
    - apply last_None in Hl. rewrite Hl in Hne. contradiction. }
  destruct (handleAppendEntriesResult_frame r
              (appendEntriesResult.mk resp req peer)) as (-> & -> & _).
  unfold afterIndexUpdate, appendEntriesResult.Success.
  cbn [appendEntriesResult.Response appendEntriesResult.req
       appendEntriesResult.peerId].
  rewrite Hok, He. cbn [negb].
  cbn [nextIndex matchIndex setNextAndMatchIndex set_matchIndex set_nextIndex].
  rewrite !mapGet_insert_eq, Hid. split; reflexivity.
Qed.

(** The leader of term 1 gets the success of peer 2 for entry 2. *)
Lemma success_response_records_replication_witness :
  mapGet (matchIndex
            (handleAppendEntriesResult leader_term1
               (appendEntriesResult.mk (AppendEntriesResponse.mk 1 true)
                  (broadcastAppendEntries_request leader_term1 2) 2))) 2
  = 2.
Proof.
  apply (success_response_records_replication leader_term1 leader_term1 2
           (AppendEntriesResponse.mk 1 true)).
  - discriminate.
  - reflexivity.
Defined.

(** X17: the leader backs off by one entry on a failure.  For a
    well-formed log and a peer whose [matchIndex] is below the last log
    id and whose [nextIndex] is [k], with [k] from 2 to the length of the
    log plus 1: after a response with [success = false] from that peer,
    [nextIndex] is [k - 1], [matchIndex] has its value, and the next
    request built for the peer starts one entry earlier: it names entry
    [k - 2] as the previous one and carries the log from entry [k - 1]
    on. *)
Theorem failure_response_backs_off
    (r : Raft) (result : appendEntriesResult.t) :
  log_wf (logs r) →
  2 ≤ mapGet (nextIndex r) (appendEntriesResult.peerId result)
    ≤ len (logs r) + 1 →
  mapGet (nextIndex r) (appendEntriesResult.peerId result) < u64_modulus →
  mapGet (matchIndex r) (appendEntriesResult.peerId result)
  < (getLastLog r).1 →
  appendEntriesResult.Success result = false →
  let p := appendEntriesResult.peerId result in
  let r' := handleAppendEntriesResult r result in
  let req' := broadcastAppendEntries_request r' p in
  mapGet (nextIndex r') p = mapGet (nextIndex r) p - 1
  ∧ mapGet (matchIndex r') p = mapGet (matchIndex r) p
  ∧ AppendEntriesRequest.PrevLogId req' = mapGet (nextIndex r) p - 2
  ∧ AppendEntriesRequest.Entries req'
    = drop (Z.to_nat (mapGet (nextIndex r) p - 2)) (logs r).
Proof.
  intros Hwf Hk Hk64 Hmatch Hfail. cbv zeta.
  set (p := appendEntriesResult.peerId result) in *.
  set (k := mapGet (nextIndex r) p) in *.
  destruct (handleAppendEntriesResult_frame r result) as (Hni & Hmi & Hlg).
  set (r' := handleAppendEntriesResult r result) in *.
  destruct (adoptTerm_frame r (appendEntriesResult.Term result))
    as (Hn0 & Hm0 & _).
  assert (mapGet (nextIndex r') p = k - 1) as Hk'.
  { rewrite Hni. unfold afterIndexUpdate. rewrite Hfail. cbn [negb].
    cbn [nextIndex setNextAndMatchIndex set_matchIndex set_nextIndex].
    fold p. rewrite mapGet_insert_eq, Hn0. fold k.
    unfold u64_sub. apply u64_small. unfold is_u64. lia. }
  assert (mapGet (matchIndex r') p = mapGet (matchIndex r) p) as Hm'.
  { rewrite Hmi. unfold afterIndexUpdate. rewrite Hfail. cbn [negb].
    cbn [matchIndex setNextAndMatchIndex set_matchIndex set_nextIndex].
    fold p. rewrite mapGet_insert_eq, Hm0. reflexivity. }
  assert (getLastLog r' = getLastLog r) as Hll
    by (apply getLastLog_logs; exact Hlg).
  assert (log_wf (logs r')) as Hwf' by (rewrite Hlg; exact Hwf).
  destruct (broadcastAppendEntries_request_wf r' p Hwf') as (-> & _);
    cbv zeta; rewrite ?Hk', ?Hm', ?Hll, ?Hlg; try lia.
  cbn [AppendEntriesRequest.PrevLogId AppendEntriesRequest.Entries].
  replace (k - 1 - 1) with (k - 2) by lia.
  repeat split.
Qed.

(** The leader of term 1 had sent entry 2 to peer 2; on the failure it
    sends entries 1 and 2 with no previous entry. *)
Lemma failure_response_backs_off_witness :
  AppendEntriesRequest.Entries
    (broadcastAppendEntries_request
       (handleAppendEntriesResult leader_term1
          (appendEntriesResult.mk (AppendEntriesResponse.mk 1 false)
             (broadcastAppendEntries_request leader_term1 2) 2)) 2)
  = [entry_a; entry_b].
Proof.
  apply (failure_response_backs_off leader_term1
           (appendEntriesResult.mk (AppendEntriesResponse.mk 1 false)
              (broadcastAppendEntries_request leader_term1 2) 2)).
  - intros i e.
    do 2 (destruct i as [|i]; [intros [= <-]; reflexivity|]).
    intros Hnone. discriminate Hnone.
  - split; vm_compute; discriminate.
  - reflexivity.
  - reflexivity.
  - reflexivity.
Defined.

(** ** Responses handled twice, and the log under the other handlers *)

Lemma afterIndexUpdate_again r result :
  appendEntriesResult.Success result = true →
  afterIndexUpdate (handleAppendEntriesResult r result) result
  = handleAppendEntriesResult r result.
Proof.
  intros Hok.
  destruct (handleAppendEntriesResult_frame r result) as (Hni & Hmi & _).
  assert (currentTerm (handleAppendEntriesResult r result)
          = Z.max (currentTerm r) (appendEntriesResult.Term result)) as Hct.
  { rewrite handleAppendEntriesResult_unfold. cbv zeta.
    destruct (commitScan_frame (afterIndexUpdate r result)
                (majority (clusterSize (afterIndexUpdate r result)))
                (reverse (getLogs (afterIndexUpdate r result)
                            (u64_add (commitIndex (afterIndexUpdate r result)) 1))))
      as (_ & -> & _).
    destruct (afterIndexUpdate_frame r result) as (_ & -> & _).
    apply adoptTerm_currentTerm. }
  set (r' := handleAppendEntriesResult r result) in *.
  unfold afterIndexUpdate at 1. rewrite adoptTerm_le by lia.
  rewrite Hok. cbn [negb].
  destruct (last (AppendEntriesRequest.Entries (appendEntriesResult.req result)))
    as [e|] eqn:Hlast; [|reflexivity].
  unfold setNextAndMatchIndex.
  assert (<[appendEntriesResult.peerId result := u64_add (Entry.Id e) 1]>
            (nextIndex r') = nextIndex r') as ->.
  { rewrite Hni. unfold afterIndexUpdate. rewrite Hok, Hlast. cbn [negb].
    cbn [nextIndex setNextAndMatchIndex set_matchIndex set_nextIndex].
    apply insert_insert_eq. }
  assert (<[appendEntriesResult.peerId result := Entry.Id e]>
            (matchIndex r') = matchIndex r') as ->.
  { rewrite Hmi. unfold afterIndexUpdate. rewrite Hok, Hlast. cbn [negb].
    cbn [matchIndex setNextAndMatchIndex set_matchIndex set_nextIndex].
    apply insert_insert_eq. }
  unfold set_matchIndex, set_nextIndex. cbn. apply Raft_eta.
Qed.

(** X18: a successful response handled a second time changes nothing.
    For a well-formed log and a commit index that is not negative,
    [handleAppendEntriesResult] applied again to the same successful
    response returns the node as the first call left it: the indexes of
    the peer are set to the same values, and the commit scan finds nothing
    above the entry it committed. *)
Theorem success_response_idempotent
    (r : Raft) (result : appendEntriesResult.t) :
  log_wf (logs r) →
  0 ≤ commitIndex r →
  appendEntriesResult.Success result = true →
  handleAppendEntriesResult (handleAppendEntriesResult r result) result
  = handleAppendEntriesResult r result.
Proof.
  intros Hwf Hc0 Hok.
  rewrite (handleAppendEntriesResult_unfold (handleAppendEntriesResult r result)).
  cbv zeta. rewrite (afterIndexUpdate_again r result Hok).
  rewrite (handleAppendEntriesResult_unfold r result). cbv zeta.
  set (r2 := afterIndexUpdate r result).
  set (needed := majority (clusterSize r2)).
  destruct (afterIndexUpdate_frame r result) as (_ & _ & _ & Hlg2 & Hci2 & _).
  fold r2 in Hlg2, Hci2.
  assert (StronglySorted id_lt (logs r2)) as Hsorted
    by (rewrite Hlg2; apply log_wf_sorted; exact Hwf).
  assert (StronglySorted id_lt (getLogs r2 (u64_add (commitIndex r2) 1)))
    as Hsl by (apply suffixFrom_sorted; exact Hsorted).
  destruct (commitScan_reverse_sorted r2 needed _ Hsl)
    as [[Hscan _] | (e & He & Hc & Hscan & Hbest)].
  - (* nothing was committed: the second call repeats the first *)
    rewrite Hscan. fold needed. exact Hscan.
  - rewrite Hscan.
    set (r' := applyLogs (setCommitIndex r2 (Entry.Id e))).
    change (majority (clusterSize r')) with needed.
    destruct (commitScan_result r' needed
                (reverse (getLogs r' (u64_add (commitIndex r') 1))))
      as [Hsame | (e' & He' & Hc' & _)]; [exact Hsame|].
    exfalso. destruct Hc as (Hlt & Hte & Hrep).
    destruct Hc' as (Hlt' & Hte' & Hrep').
    change (commitIndex r') with (Entry.Id e) in Hlt'.
    change (currentTerm r') with (currentTerm r2) in Hte'.
    change (countReplicas r' (Entry.Id e'))
      with (countReplicas r2 (Entry.Id e')) in Hrep'.
    assert (e' ∈ getLogs r2 (u64_add (commitIndex r2) 1)) as Hin.
    { unfold getLogs. apply suffixFrom_sorted_elem_of; [exact Hsorted|].
      rewrite elem_of_reverse in He'. unfold getLogs in He'.
      apply suffixFrom_elem_of in He'.
      split; [exact He'|].
      rewrite Hci2. unfold u64_add, u64, u64_modulus.
      pose proof (Z.mod_le (commitIndex r + 1) (2 ^ 64)) as Hmod.
      rewrite Hci2 in Hlt. lia. }
    assert (Entry.Id e' ≤ Entry.Id e) as Hle.
    { apply Hbest; [exact Hin|]. unfold commits. split; [lia | auto]. }
    lia.
Qed.

(** The successful response of peer 2 for entry 6, which commits it,
    handled twice by the leader of term 3. *)
Lemma success_response_idempotent_witness :
  commitIndex
    (handleAppendEntriesResult
       (handleAppendEntriesResult (appendLogs leader_term3 [Entry.mk 6 3 "f"])
          (appendEntriesResult.mk (AppendEntriesResponse.mk 3 true)
             (AppendEntriesRequest.mk 3 1 5 2 [Entry.mk 6 3 "f"] 3) 2))
       (appendEntriesResult.mk (AppendEntriesResponse.mk 3 true)
          (AppendEntriesRequest.mk 3 1 5 2 [Entry.mk 6 3 "f"] 3) 2))
  = 6.
Proof.
  rewrite (success_response_idempotent
             (appendLogs leader_term3 [Entry.mk 6 3 "f"])
             (appendEntriesResult.mk (AppendEntriesResponse.mk 3 true)
                (AppendEntriesRequest.mk 3 1 5 2 [Entry.mk 6 3 "f"] 3) 2)).
  - reflexivity.
  - intros i e.
    do 6 (destruct i as [|i]; [intros [= <-]; reflexivity|]).
    intros Hnone. discriminate Hnone.
  - vm_compute. discriminate.
  - reflexivity.
Defined.

(** X19: entries leave the log, or change, in [appendEntries] only.
    [requestVote], [handleVoteResult], [handleAppendEntriesResult],
    [voteForSelf], the follower's timeout and the leader's reset return
    the log they were given, and [applyCommand] returns it with at most
    one entry added at the end. *)
Theorem log_kept_outside_appendEntries (r : Raft) :
  (∀ req now, logs (requestVote r req now).1 = logs r)
  ∧ (∀ vote granted needed,
       logs (handleVoteResult r vote granted needed).1 = logs r)
  ∧ (∀ result, logs (handleAppendEntriesResult r result) = logs r)
  ∧ (∀ granted, logs (voteForSelf r granted).1 = logs r)
  ∧ logs (handleFollowerHeartbeatTimeout r) = logs r
  ∧ logs (runLeader_reset r) = logs r
  ∧ (∀ req, logs (applyCommand r req).1 = logs r
            ∨ ∃ e, logs (applyCommand r req).1 = logs r ++ [e]).
Proof.
  split.
  { intros req now. destruct (requestVote_cases r req now)
      as [(_ & ->) | [(_ & _ & ->) | (_ & _ & _ & ->)]]; cbn [fst];
      [reflexivity | apply adoptTerm_frame | cbn; apply adoptTerm_frame]. }
  split.
  { intros vote granted needed. unfold handleVoteResult. cbn [fst].
    destruct (_ <=? _); destruct (_ <? _); reflexivity. }
  split; [intros result; apply handleAppendEntriesResult_frame|].
  split; [intros granted; reflexivity|].
  split; [reflexivity|].
  split; [apply runLeader_reset_rest|].
  intros req. unfold applyCommand. destruct (bool_decide _); [left; reflexivity|].
  destruct (getLastLog r). right. eexists. reflexivity.
Qed.
